(** * console-slog: the Handler, its indentation and its context buffers

    A shallow embedding of the console handler for log/slog: the
    [Indentation] options and [indentString], [DefaultIndentation], the
    [DepthValuer] counter, the older embedded-counter [indentMsg], and
    the [Handler] with [Enabled], [Handle], [WithAttrs] and [WithGroup]
    over an explicit store of byte arrays (Go slices share their backing
    arrays), a buffer pool, the sinks and the depth counters.

    Go values are modelled as follows.
    - [string] is a Go string, [list byte] the contents of a []byte;
    - [int64], [int] (64 bits) and [slog.Level] are [Z], with the
      wrap-around of the arithmetic written out by [wrap64];
    - [uint] is [N];
    - a slice is a header [buffer] (array, length, capacity) next to the
      store of arrays of the [World];
    - a method that reads or writes shared state is a function in the
      state monad [M] over the [World]. *)

From Stdlib Require Import ZArith NArith String Ascii Strings.Byte List Bool Lia.
From stdpp Require Import base tactics option list strings pretty.

Local Open Scope Z_scope.

(** ** Go strings *)

(** builder.WriteString(s), [n] times over, as the counting loops of
    [indentString] and [indentMsg] do it. *)
Fixpoint writeTimes (n : nat) (s : string) (builder : string) : string :=
  match n with
  | O => builder
  | S n' => writeTimes n' s (builder +:+ s)
  end.

(** The text [s] repeated [n] times: what the specification calls
    "the tab string repeated exactly n times". *)
Fixpoint repeatString (s : string) (n : nat) : string :=
  match n with
  | O => ""
  | S n' => s +:+ repeatString s n'
  end.

Definition isEmpty (s : string) : bool := String.eqb s "".

(** ** Machine integers *)

Definition minInt64 : Z := - 2 ^ 63.
Definition maxInt64 : Z := 2 ^ 63 - 1.

(** Two's complement wrap-around of a 64-bit signed result. *)
Definition wrap64 (z : Z) : Z := (z + 2 ^ 63) mod 2 ^ 64 - 2 ^ 63.

Definition inInt64 (z : Z) : Prop := minInt64 <= z <= maxInt64.

(** ** Indentation (the options of the handler) *)

Definition defaultIndentKey : string := "depth".

Record Indentation := mkIndentation {
  Prefix : string;
  Tab : string;
  Key : string
}.

Definition isZero (indent : Indentation) : bool :=
  isEmpty (Prefix indent) && isEmpty (Tab indent).

(** func (indent *Indentation) indentString(depth int64) string *)
Definition indentString (indent : Indentation) (depth : Z) : string :=
  if isZero indent || (depth <=? 0) then ""
  else
    let builder := "" in
    let builder :=
      if negb (isEmpty (Prefix indent)) then builder +:+ Prefix indent
      else builder in
    let builder :=
      if negb (isEmpty (Tab indent))
      then writeTimes (Z.to_nat depth) (Tab indent) builder
      else builder in
    builder.

(** func DefaultIndentation(tab string) Indentation *)
Definition DefaultIndentation (tab : string) : Indentation :=
  {| Prefix := ""; Tab := "  "; Key := defaultIndentKey |}.

(** ** The embedded depth counter of handler.go *)

Module Embedded.

Record indentation := mkIndentationState {
  prefix : string;
  indent : string;
  depth : N
}.

(** func (hd *indentation) indentMsg(msg string) string *)
Definition indentMsg (hd : indentation) (msg : string) : string :=
  if isEmpty (prefix hd) && (isEmpty (indent hd) || (depth hd <? 1)%N)
  then msg
  else
    let builder := "" in
    let builder :=
      if negb (isEmpty (prefix hd)) then builder +:+ prefix hd
      else builder in
    let builder :=
      if negb (isEmpty (indent hd)) && (0 <? depth hd)%N
      then writeTimes (N.to_nat (depth hd)) (indent hd) builder
      else builder in
    builder +:+ msg.

(** func (h *Handler) SetIndentation(prefix, indent string) *)
Definition SetIndentation (hd : indentation) (p i : string) : indentation :=
  {| prefix := p; indent := i; depth := 0 |}.

(** func (h *Handler) Increment(); uint wraps at 2^64. *)
Definition Increment (hd : indentation) : indentation :=
  {| prefix := prefix hd; indent := indent hd;
     depth := ((depth hd + 1) mod 2 ^ 64)%N |}.

(** func (h *Handler) Decrement(): floored at zero. *)
Definition Decrement (hd : indentation) : indentation :=
  if (0 <? depth hd)%N
  then {| prefix := prefix hd; indent := indent hd;
          depth := (depth hd - 1)%N |}
  else hd.

End Embedded.

(** ** slog values *)

Inductive Kind :=
| KindAny | KindBool | KindDuration | KindFloat64 | KindInt64
| KindString | KindTime | KindUint64 | KindGroup | KindLogValuer.

Definition Kind_eqb (k1 k2 : Kind) : bool :=
  match k1, k2 with
  | KindAny, KindAny | KindBool, KindBool | KindDuration, KindDuration
  | KindFloat64, KindFloat64 | KindInt64, KindInt64
  | KindString, KindString | KindTime, KindTime | KindUint64, KindUint64
  | KindGroup, KindGroup | KindLogValuer, KindLogValuer => true
  | _, _ => false
  end.

(** slog.Value is a tagged union; slog.Attr pairs a key with a value.
    A LogValuer is either a pointer to a [DepthValuer] (the one valuer
    this package defines) or some other valuer, given by the value its
    LogValue method returns. *)
Inductive Value :=
| BoolValue (b : bool)
| Int64Value (i : Z)
| Uint64Value (u : N)
| Float64Value (bits : N)
| StringValue (s : string)
| TimeValue (nanos : Z)
| DurationValue (nanos : Z)
| GroupValue (g : list Attr)
| AnyValue (repr : string)
| LogValuerValue (lv : LogValuer)
with Attr :=
| mkAttr (key : string) (value : Value)
with LogValuer :=
| DepthValuerPtr (p : nat)
| OtherValuer (result : Value).

Definition AttrKey (a : Attr) : string := let 'mkAttr k _ := a in k.
Definition AttrValue (a : Attr) : Value := let 'mkAttr _ v := a in v.

Definition ValueKind (v : Value) : Kind :=
  match v with
  | BoolValue _ => KindBool
  | Int64Value _ => KindInt64
  | Uint64Value _ => KindUint64
  | Float64Value _ => KindFloat64
  | StringValue _ => KindString
  | TimeValue _ => KindTime
  | DurationValue _ => KindDuration
  | GroupValue _ => KindGroup
  | AnyValue _ => KindAny
  | LogValuerValue _ => KindLogValuer
  end.

(** Value.Int64: the integer of a value of KindInt64 (the method
    panics on the other kinds; [Handle] calls it behind a kind test). *)
Definition ValueInt64 (v : Value) : Z :=
  match v with Int64Value i => i | _ => 0 end.

(** slog.IntValue(v int): an int is 64 bits wide. *)
Definition IntValue (v : Z) : Value := Int64Value v.

(** ** DepthValuer *)

Record DepthValuer := mkDepthValuer { dvDepth : Z }.

(** func (dv *DepthValuer) LogValue() slog.Value *)
Definition LogValue (dv : DepthValuer) : Value := IntValue (dvDepth dv).

(** func (dv *DepthValuer) Increment() *)
Definition Increment (dv : DepthValuer) : DepthValuer :=
  {| dvDepth := wrap64 (dvDepth dv + 1) |}.

(** func (dv *DepthValuer) Decrement() *)
Definition Decrement (dv : DepthValuer) : DepthValuer :=
  {| dvDepth := wrap64 (dvDepth dv - 1) |}.

(** The counters in memory, by address. *)
Definition ValuerStore := nat -> DepthValuer.

(** value.LogValuer().LogValue() *)
Definition callLogValue (vs : ValuerStore) (lv : LogValuer) : Value :=
  match lv with
  | DepthValuerPtr p => LogValue (vs p)
  | OtherValuer result => result
  end.

(** ** The records handed to the handler *)

(** slog.Record: the time (in nanoseconds), the message, the level, the
    program counter of the call site and the attributes, in the order
    in which Record.Attrs yields them. *)
Record Record_ := mkRecord {
  recTime : Z;
  recMessage : string;
  recLevel : Z;
  recPC : N;
  recAttrs : list Attr
}.

Definition LevelDebug : Z := -4.
Definition LevelInfo : Z := 0.
Definition LevelWarn : Z := 4.
Definition LevelError : Z := 8.

(** ** Options *)

(** Modelled from the spec: the Theme interface is declared in a file
    that is not part of the sources; "a mapping from semantic token kind
    to a color wrapper function", of which the handler only stores a
    reference. *)
Inductive Theme := DefaultTheme | NamedTheme (name : string).

Definition NewDefaultTheme : Theme := DefaultTheme.

(** [Level] is a slog.Leveler and [Theme] an interface: both may be nil. *)
Record HandlerOptions := mkHandlerOptions {
  AddSource : bool;
  Level : option Z;
  NoColor : bool;
  TimeFormat : string;
  optTheme : option Theme;
  Indent : Indentation
}.

Definition zeroHandlerOptions : HandlerOptions :=
  {| AddSource := false; Level := None; NoColor := false; TimeFormat := "";
     optTheme := None; Indent := mkIndentation "" "" "" |}.

(** time.DateTime *)
Definition DateTime : string := "2006-01-02 15:04:05".

(** ** Buffers: slices over a store of arrays *)

(** type buffer []byte: a slice header. All slices of the package start
    at the first element of their array, so the header is the array (nil
    for the nil slice), the length and the capacity. *)
Record buffer := mkBuffer {
  bufArr : option nat;
  bufLen : nat;
  bufCap : nat
}.

Definition nilBuffer : buffer := mkBuffer None 0 0.

Definition error := string.

(** io.Writer. A writer that accepts fewer bytes than it is given has to
    return an error, so the error alone tells how the call went. *)
Class Writer (W : Type) := {
  Write : W -> list byte -> W * option error
}.

(** The text the encoder produces for each token. The encoder is in a
    file that is not part of the sources: its output is a parameter of
    the development, a function of the options it was built with and of
    the datum (and of the depth counters, for the attributes whose value
    is resolved when it is formatted). *)
Class EncoderText := {
  timestampText : HandlerOptions -> Z -> list byte;
  levelText : HandlerOptions -> Z -> list byte;
  sourceText : HandlerOptions -> N -> string -> list byte;
  messageText : HandlerOptions -> Z -> string -> list byte;
  attrText : HandlerOptions -> ValuerStore -> Attr -> string -> list byte;
  newLineText : HandlerOptions -> list byte
}.

Section Handler.

Context {W : Type} `{Writer W} `{EncoderText}.

(** var cwd, _ = os.Getwd() *)
Variable cwd : string.

(** strings.TrimSpace, of Go's library. *)
Variable TrimSpace : string -> string.

(** The shared state: the arrays behind the slices (an array is
    allocated at the next free index), the buffer pool, the writers
    (by reference) and the depth counters. *)
Record World := mkWorld {
  arrays : list (list byte);
  pool : list buffer;
  sinks : nat -> W;
  valuers : ValuerStore
}.

Definition setArrays (a : list (list byte)) (σ : World) : World :=
  {| arrays := a; pool := pool σ; sinks := sinks σ; valuers := valuers σ |}.

Definition setPool (p : list buffer) (σ : World) : World :=
  {| arrays := arrays σ; pool := p; sinks := sinks σ; valuers := valuers σ |}.

Definition setSink (dst : nat) (w : W) (σ : World) : World :=
  {| arrays := arrays σ; pool := pool σ;
     sinks := fun i => if Nat.eqb i dst then w else sinks σ i;
     valuers := valuers σ |}.

(** Computations over the shared state. *)
Definition M (A : Type) : Type := World -> A * World.

Definition ret {A} (a : A) : M A := fun σ => (a, σ).

Definition bind {A B} (c : M A) (k : A -> M B) : M B :=
  fun σ => let '(a, σ') := c σ in k a σ'.

Notation "'do' x <- c ; k" := (bind c (fun x => k))
  (at level 10, x name, c at level 100, k at level 200, only parsing).

(** The logical content of a slice. *)
Definition bytes (σ : World) (b : buffer) : list byte :=
  match bufArr b with
  | None => []
  | Some p => take (bufLen b) (default [] (arrays σ !! p))
  end.

(** The capacity append asks for when the array is full: at least
    what is needed, and twice the old capacity when that is more. *)
Definition growCap (old needed : nat) : nat := Nat.max needed (2 * old).

(** Modelled from the spec: buffer.Append (buffer.go is not part of
    the sources), "append(bytes) grows logical length, may reallocate
    capacity", with the semantics of Go's append: the bytes are written
    in place, after the logical content, when the capacity suffices,
    and into a new array that starts with a copy of the content
    otherwise. *)
Definition Append (b : buffer) (data : list byte) : M buffer := fun σ =>
  let n := (bufLen b + length data)%nat in
  if (n <=? bufCap b)%nat then
    match bufArr b with
    | Some p =>
        let a := default [] (arrays σ !! p) in
        (mkBuffer (Some p) n (bufCap b),
         setArrays (<[p := take (bufLen b) a ++ data ++ drop n a]> (arrays σ)) σ)
    | None => (b, σ)
    end
  else
    let c := growCap (bufCap b) n in
    (mkBuffer (Some (length (arrays σ))) n c,
     setArrays (arrays σ ++ [bytes σ b ++ data ++ replicate (c - n) x00]) σ).

(** Modelled from the spec: buffer.copy, "copy-append another Buffer's
    logical content". *)
Definition copy (b : buffer) (src : buffer) : M buffer := fun σ =>
  Append b (bytes σ src) σ.

(** Modelled from the spec: buffer.Clip, "shrinks capacity bookkeeping
    to the current logical length". *)
Definition Clip (b : buffer) : buffer :=
  mkBuffer (bufArr b) (bufLen b) (bufLen b).

(** Modelled from the spec: buffer.Reset, "logical length to zero,
    retained capacity". *)
Definition Reset (b : buffer) : buffer :=
  mkBuffer (bufArr b) 0 (bufCap b).

(** Modelled from the spec: buffer.WriteTo, "writes all logical bytes
    to the sink and signals failure if the sink rejects the write".
    A buffer taken from the pool is logically empty ("release resets
    logical length before returning") and [Handle] puts the buffer back
    as [WriteTo] leaves it when the write succeeds, so the buffer is
    emptied once its bytes are written; TestHandler_WithAttr calls
    Handle twice and expects the second line alone from the second
    call. *)
Definition WriteTo (b : buffer) (dst : nat) : M (buffer * option error) :=
  fun σ =>
    let '(w, err) := Write (sinks σ dst) (bytes σ b) in
    match err with
    | Some e => ((b, Some e), setSink dst w σ)
    | None => ((Reset b, None), setSink dst w σ)
    end.

(** Modelled from the spec: the pool, "acquire (create-if-empty or
    reuse)"; New is [new(buffer)], the nil slice. The pool hands out
    the buffer that was put back last. *)
Definition bufferPool_Get : M buffer := fun σ =>
  match pool σ with
  | b :: rest => (b, setPool rest σ)
  | [] => (nilBuffer, σ)
  end.

Definition bufferPool_Put (b : buffer) : M unit := fun σ =>
  (tt, setPool (b :: pool σ) σ).

(** *** The encoder *)

Record encoder := mkEncoder { encOpts : HandlerOptions }.

Definition writeTimestamp (e : encoder) (buf : buffer) (t : Z) : M buffer :=
  Append buf (timestampText (encOpts e) t).

Definition writeLevel (e : encoder) (buf : buffer) (l : Z) : M buffer :=
  Append buf (levelText (encOpts e) l).

Definition writeSource (e : encoder) (buf : buffer) (pc : N) (dir : string)
  : M buffer :=
  Append buf (sourceText (encOpts e) pc dir).

Definition writeMessage (e : encoder) (buf : buffer) (l : Z) (msg : string)
  : M buffer :=
  Append buf (messageText (encOpts e) l msg).

Definition writeAttr (e : encoder) (buf : buffer) (a : Attr) (g : string)
  : M buffer :=
  fun σ => Append buf (attrText (encOpts e) (valuers σ) a g) σ.

Definition NewLine (e : encoder) (buf : buffer) : M buffer :=
  Append buf (newLineText (encOpts e)).

(** for _, a := range attrs { body(buf, a) } *)
Fixpoint rangeAttrs (body : buffer -> Attr -> M buffer) (attrs : list Attr)
  (buf : buffer) : M buffer :=
  match attrs with
  | [] => ret buf
  | a :: rest => do buf' <- body buf a; rangeAttrs body rest buf'
  end.

(** *** The handler *)

Record Handler := mkHandler {
  opts : HandlerOptions;
  out : nat;
  group : string;
  context : buffer;
  enc : encoder
}.

(** func NewHandler(out io.Writer, opts *HandlerOptions) *Handler;
    [None] is the nil pointer. *)
Definition NewHandler (o : nat) (options : option HandlerOptions) : Handler :=
  let opts0 := match options with Some x => x | None => zeroHandlerOptions end in
  let level := match Level opts0 with None => Some LevelInfo | l => l end in
  let timeFormat :=
    if isEmpty (TimeFormat opts0) then DateTime else TimeFormat opts0 in
  let theme :=
    match optTheme opts0 with None => Some NewDefaultTheme | t => t end in
  let key :=
    if isEmpty (Key (Indent opts0)) then defaultIndentKey
    else Key (Indent opts0) in
  let opts1 :=
    {| AddSource := AddSource opts0; Level := level; NoColor := NoColor opts0;
       TimeFormat := timeFormat; optTheme := theme;
       Indent := {| Prefix := Prefix (Indent opts0); Tab := Tab (Indent opts0);
                    Key := key |} |} in
  {| opts := opts1; out := o; group := ""; context := nilBuffer;
     enc := {| encOpts := opts1 |} |}.

(** func (h *Handler) Enabled(_ context.Context, l slog.Level) bool;
    [None] is the panic of a call through a nil Leveler. *)
Definition Enabled (h : Handler) (l : Z) : option bool :=
  match Level (opts h) with
  | Some minimum => Some (minimum <=? l)
  | None => None
  end.

(** The function Handle passes to rec.Attrs when indentation is
    configured: the state is the slice [attributes] and [depth]. *)
Definition scanAttr (key : string) (vs : ValuerStore)
  (st : list Attr * Z) (a : Attr) : list Attr * Z :=
  let '(attributes, depth) := st in
  if String.eqb (AttrKey a) key then
    let value := AttrValue a in
    let value :=
      match value with
      | LogValuerValue lv => callLogValue vs lv
      | _ => value
      end in
    if Kind_eqb (ValueKind value) KindInt64
    then (attributes, ValueInt64 value)
    else (attributes, depth)
  else (attributes ++ [a], depth).

Definition scanAttrs (key : string) (vs : ValuerStore) (attrs : list Attr)
  : list Attr * Z :=
  fold_left (scanAttr key vs) attrs ([], 0).

(** func (h *Handler) Handle(_ context.Context, rec slog.Record) error *)
Definition Handle (h : Handler) (rec : Record_) : M (option error) :=
  do buf <- bufferPool_Get;
  do buf <- writeTimestamp (enc h) buf (recTime rec);
  do buf <- writeLevel (enc h) buf (recLevel rec);
  do buf <- (if AddSource (opts h) && (0 <? recPC rec)%N
          then writeSource (enc h) buf (recPC rec) cwd
          else ret buf);
  do buf <- (if isZero (Indent (opts h)) then
            do buf <- writeMessage (enc h) buf (recLevel rec) (recMessage rec);
            do buf <- copy buf (context h);
            rangeAttrs (fun buf a => writeAttr (enc h) buf a (group h))
              (recAttrs rec) buf
          else
            let key := Key (Indent (opts h)) in
            fun σ =>
              let '(attributes, depth) :=
                scanAttrs key (valuers σ) (recAttrs rec) in
              (do buf <- writeMessage (enc h) buf (recLevel rec)
                        (indentString (Indent (opts h)) depth +:+ recMessage rec);
               do buf <- copy buf (context h);
               rangeAttrs (fun buf a => writeAttr (enc h) buf a (group h))
                 attributes buf) σ);
  do buf <- NewLine (enc h) buf;
  do r <- WriteTo buf (out h);
  match r with
  | (buf, Some err) =>
      let buf := Reset buf in
      do _ <- bufferPool_Put buf;
      ret (Some err)
  | (buf, None) =>
      do _ <- bufferPool_Put buf;
      ret None
  end.

(** func (h *Handler) WithAttrs(attrs []slog.Attr) slog.Handler *)
Definition WithAttrs (h : Handler) (attrs : list Attr) : M Handler :=
  let newCtx := context h in
  do newCtx <- rangeAttrs (fun buf a => writeAttr (enc h) buf a (group h))
              attrs newCtx;
  let newCtx := Clip newCtx in
  ret {| opts := opts h; out := out h; group := group h;
         context := newCtx; enc := enc h |}.

(** func (h *Handler) WithGroup(name string) slog.Handler *)
Definition WithGroup (h : Handler) (name : string) : M Handler :=
  let name := TrimSpace name in
  let name :=
    if negb (isEmpty (group h)) then group h +:+ "." +:+ name else name in
  ret {| opts := opts h; out := out h; group := name;
         context := context h; enc := enc h |}.

End Handler.

Arguments World W : clear implicits.
Arguments M W A : clear implicits.

(** ** Well-formed states *)

Section Invariants.

Context {W : Type}.
Implicit Types (σ : World W) (b c : buffer).

(** A header is valid when its array is allocated and large enough
    for its capacity; the nil slice has no capacity. *)
Definition validBuffer σ b : bool :=
  match bufArr b with
  | None => (bufLen b =? 0)%nat && (bufCap b =? 0)%nat
  | Some p =>
      match arrays σ !! p with
      | Some a => (bufLen b <=? bufCap b)%nat && (bufCap b <=? length a)%nat
      | None => false
      end
  end.

(** Two headers over the same array. *)
Definition sameArray b c : bool :=
  match bufArr b, bufArr c with
  | Some p, Some q => (p =? q)%nat
  | _, _ => false
  end.

(** Pool membership: a buffer in the pool is valid and logically
    empty ("release resets logical length before returning"). *)
Definition poolOK σ : bool :=
  forallb (fun b => validBuffer σ b && (bufLen b =? 0)%nat) (pool σ).

(** The context of a handler: valid, clipped (no capacity beyond its
    length) and not the array of a pooled buffer. *)
Definition contextOK σ (h : Handler) : bool :=
  validBuffer σ (context h)
  && (bufCap (context h) =? bufLen (context h))%nat
  && forallb (fun b => negb (sameArray b (context h))) (pool σ).

(** [grown σ0 b0 data σ b]: from the state [σ0], appends to [b0]
    have led to the header [b] in the state [σ]; [data] is what was
    appended. Nothing but arrays changed, no array changed its
    capacity, only the array of [b0] may have been written to, and
    only between the length and the capacity of [b0]. *)
Record grown σ0 b0 (data : list byte) σ b : Prop := mkGrown {
  grown_valid : validBuffer σ b = true;
  grown_bytes : bytes σ b = bytes σ0 b0 ++ data;
  grown_len : (bufLen b0 <= bufLen b)%nat;
  grown_arr :
    (bufArr b = bufArr b0 /\ bufCap b = bufCap b0) \/
    (exists q, bufArr b = Some q /\ (length (arrays σ0) <= q)%nat);
  grown_alloc : (length (arrays σ0) <= length (arrays σ))%nat;
  grown_frame :
    forall q a0, arrays σ0 !! q = Some a0 ->
      exists a, arrays σ !! q = Some a /\ length a = length a0 /\
                take (bufLen b0) a = take (bufLen b0) a0 /\
                drop (bufCap b0) a = drop (bufCap b0) a0 /\
                (bufArr b0 <> Some q -> a = a0);
  grown_pool : pool σ = pool σ0;
  grown_sinks : sinks σ = sinks σ0;
  grown_valuers : valuers σ = valuers σ0
}.

End Invariants.

(** ** What a line consists of *)

Section Rendering.

Context {W : Type} `{Writer W} `{EncoderText}.
Variable cwd : string.

(** The text of a sequence of attributes under a group path. *)
Definition attrsText (o : HandlerOptions) (vs : ValuerStore)
  (attrs : list Attr) (g : string) : list byte :=
  concat (map (fun a => attrText o vs a g) attrs).

(** Timestamp, level and, when asked for, the source location. *)
Definition headerText (h : Handler) (rec : Record_) : list byte :=
  timestampText (encOpts (enc h)) (recTime rec)
  ++ levelText (encOpts (enc h)) (recLevel rec)
  ++ (if AddSource (opts h) && (0 <? recPC rec)%N
      then sourceText (encOpts (enc h)) (recPC rec) cwd
      else []).

(** A line with the message [msg], the context bytes [ctx] and the
    attributes [attrs]. *)
Definition lineOf (h : Handler) (rec : Record_) (msg : string)
  (ctx : list byte) (vs : ValuerStore) (attrs : list Attr) : list byte :=
  headerText h rec
  ++ messageText (encOpts (enc h)) (recLevel rec) msg
  ++ ctx
  ++ attrsText (encOpts (enc h)) vs attrs (group h)
  ++ newLineText (encOpts (enc h)).

(** The line of a record, for a handler whose context holds [ctx]. *)
Definition lineText (h : Handler) (rec : Record_) (ctx : list byte)
  (vs : ValuerStore) : list byte :=
  if isZero (Indent (opts h)) then
    lineOf h rec (recMessage rec) ctx vs (recAttrs rec)
  else
    let '(attributes, depth) :=
      scanAttrs (Key (Indent (opts h))) vs (recAttrs rec) in
    lineOf h rec (indentString (Indent (opts h)) depth +:+ recMessage rec)
      ctx vs attributes.

(** The two halves of [Handle]: the statements that fill the buffer,
    and the write with the return of the buffer to the pool. *)
Definition fillBuffer (h : Handler) (rec : Record_) (buf : buffer)
  : M W buffer :=
  bind (writeTimestamp (enc h) buf (recTime rec)) (fun buf =>
  bind (writeLevel (enc h) buf (recLevel rec)) (fun buf =>
  bind (if AddSource (opts h) && (0 <? recPC rec)%N
        then writeSource (enc h) buf (recPC rec) cwd
        else ret buf) (fun buf =>
  bind (if isZero (Indent (opts h)) then
          bind (writeMessage (enc h) buf (recLevel rec) (recMessage rec))
            (fun buf =>
          bind (copy buf (context h)) (fun buf =>
          rangeAttrs (fun buf a => writeAttr (enc h) buf a (group h))
            (recAttrs rec) buf))
        else
          fun σ =>
            let '(attributes, depth) :=
              scanAttrs (Key (Indent (opts h))) (valuers σ) (recAttrs rec) in
            bind (writeMessage (enc h) buf (recLevel rec)
                    (indentString (Indent (opts h)) depth +:+ recMessage rec))
              (fun buf =>
            bind (copy buf (context h)) (fun buf =>
            rangeAttrs (fun buf a => writeAttr (enc h) buf a (group h))
              attributes buf)) σ) (fun buf =>
  NewLine (enc h) buf)))).

Definition flushBuffer (h : Handler) (buf : buffer) : M W (option error) :=
  bind (WriteTo buf (out h)) (fun r =>
  match r with
  | (buf, Some err) =>
      bind (bufferPool_Put (Reset buf)) (fun _ => ret (Some err))
  | (buf, None) =>
      bind (bufferPool_Put buf) (fun _ => ret None)
  end).

End Rendering.

(** ** The depth attribute, in the words of the specification *)

(** The value of a depth attribute, "resolving a lazily-evaluated value
    first if needed". *)
Definition resolveOnce (vs : ValuerStore) (v : Value) : Value :=
  match v with
  | LogValuerValue lv => callLogValue vs lv
  | _ => v
  end.

Definition isDepthKey (key : string) (a : Attr) : bool :=
  String.eqb (AttrKey a) key.

(** The attributes that are emitted: all but those under the depth
    key, in their original order. *)
Definition emittedAttrs (key : string) (attrs : list Attr) : list Attr :=
  List.filter (fun a => negb (isDepthKey key a)) attrs.

(** An attribute under the depth key whose resolved value is of
    integer kind. *)
Definition isIntDepth (key : string) (vs : ValuerStore) (a : Attr) : bool :=
  isDepthKey key a
  && Kind_eqb (ValueKind (resolveOnce vs (AttrValue a))) KindInt64.

(** The depth of a record: the value of the last attribute under the
    depth key whose resolved value is of integer kind, and 0 when there
    is none. *)
Definition recordDepth (key : string) (vs : ValuerStore) (attrs : list Attr)
  : Z :=
  match last (List.filter (isIntDepth key vs) attrs) with
  | Some a => ValueInt64 (resolveOnce vs (AttrValue a))
  | None => 0
  end.

(** The depth the way the specification words its degradation: each
    attribute under the depth key is read as the depth, "degrading to
    depth 0 when the value is of the wrong kind", so that the last
    attribute under the key decides. *)
Definition depthOrZero (vs : ValuerStore) (a : Attr) : Z :=
  let v := resolveOnce vs (AttrValue a) in
  if Kind_eqb (ValueKind v) KindInt64 then ValueInt64 v else 0.

Definition degradingDepth (key : string) (vs : ValuerStore)
  (attrs : list Attr) : Z :=
  match last (List.filter (isDepthKey key) attrs) with
  | Some a => depthOrZero vs a
  | None => 0
  end.

(** ** Later states *)

(** [later cwd σ σ']: the state [σ'] is reached from [σ] by calls of
    Handle, on handlers whose context is well formed. *)
Inductive later {W : Type} `{Writer W} `{EncoderText} (cwd : string)
  (σ : World W) : World W -> Prop :=
| later_now : later cwd σ σ
| later_Handle σ' h rec :
    later cwd σ σ' -> contextOK σ' h = true ->
    later cwd σ (Handle cwd h rec σ').2.

(** ** Instances to run the definitions on *)

(** A writer that records what it is given (bytes.Buffer, as in the
    tests of the package) until it is broken, after which every write
    fails. *)
Record Sink := mkSink {
  written : list byte;
  broken : bool
}.

#[global] Instance Sink_Writer : Writer Sink := {
  Write s p :=
    if broken s then (s, Some "write failed")
    else ({| written := written s ++ p; broken := false |}, None)
}.

Definition valueText (vs : ValuerStore) (v : Value) : string :=
  match resolveOnce vs v with
  | BoolValue b => if b then "true" else "false"
  | Int64Value i => pretty i
  | Uint64Value u => pretty u
  | StringValue s => s
  | _ => "?"
  end.

(** A plain encoder: no colors, [key=value] preceded by a space and by
    the group path. *)
#[global] Instance plainText : EncoderText := {
  timestampText _ t := list_byte_of_string (pretty t);
  levelText _ l :=
    list_byte_of_string
      (if l <? 0 then " DBG" else if l <? 4 then " INF"
       else if l <? 8 then " WRN" else " ERR");
  sourceText _ pc dir := list_byte_of_string (" " +:+ dir +:+ ":" +:+ pretty pc);
  messageText _ _ msg := list_byte_of_string (" " +:+ msg);
  attrText _ vs a g :=
    list_byte_of_string
      (" " +:+ (if isEmpty g then "" else g +:+ ".")
       +:+ AttrKey a +:+ "=" +:+ valueText vs (AttrValue a));
  newLineText _ := [x0a]
}.

Definition isSpace (c : ascii) : bool :=
  match c with
  | " "%char | "009"%char | "010"%char | "011"%char | "012"%char
  | "013"%char => true
  | _ => false
  end.

Fixpoint trimLeft (s : string) : string :=
  match s with
  | String c rest => if isSpace c then trimLeft rest else s
  | EmptyString => EmptyString
  end.

Fixpoint trimRight (s : string) : string :=
  match s with
  | String c rest =>
      match trimRight rest with
      | EmptyString => if isSpace c then EmptyString else String c EmptyString
      | rest' => String c rest'
      end
  | EmptyString => EmptyString
  end.

(** strings.TrimSpace on ASCII text. *)
Definition trimSpaceASCII (s : string) : string := trimRight (trimLeft s).

Definition emptyWorld : World Sink :=
  {| arrays := []; pool := [];
     sinks := fun _ => mkSink [] false;
     valuers := fun _ => mkDepthValuer 0 |}.

Definition brokenWorld : World Sink :=
  {| arrays := []; pool := [];
     sinks := fun _ => mkSink [] true;
     valuers := fun _ => mkDepthValuer 0 |}.

(** What the writer behind a handler has recorded, as text. *)
Definition output (σ : World Sink) (o : nat) : string :=
  string_of_list_byte (written (sinks σ o)).

(** A handler with the default options (minimum level Info), one that
    indents, and records to hand to them. *)
Definition infoHandler : Handler := NewHandler 0 None.

Definition indentOptions : HandlerOptions :=
  {| AddSource := false; Level := Some LevelDebug; NoColor := true;
     TimeFormat := ""; optTheme := None;
     Indent := mkIndentation ">" "  " "" |}.

Definition indentHandler : Handler := NewHandler 0 (Some indentOptions).

Definition debugRecord : Record_ :=
  mkRecord 7 "foobar" LevelDebug 0 [mkAttr "foo" (StringValue "bar")].

Definition infoRecord (attrs : list Attr) : Record_ :=
  mkRecord 7 "foobar" LevelInfo 0 attrs.

(** ** Depth counters behind pointers *)

Definition setValuers {W : Type} (v : ValuerStore) (σ : World W) : World W :=
  {| arrays := arrays σ; pool := pool σ; sinks := sinks σ; valuers := v |}.

Definition updateValuer (p : nat) (f : DepthValuer -> DepthValuer)
  (vs : ValuerStore) : ValuerStore :=
  fun q => if Nat.eqb q p then f (vs q) else vs q.

(** dv.Increment() and dv.Decrement() through the pointer [p]. *)
Definition IncrementAt {W : Type} (p : nat) (σ : World W) : World W :=
  setValuers (updateValuer p Increment (valuers σ)) σ.

Definition DecrementAt {W : Type} (p : nat) (σ : World W) : World W :=
  setValuers (updateValuer p Decrement (valuers σ)) σ.

(** ** Families of handlers and reachable states *)

(** The handlers derived from [root] by WithAttrs and WithGroup. *)
Inductive family {W : Type} `{EncoderText} (TrimSpace : string -> string)
  (root : Handler) : Handler -> Prop :=
| family_root : family TrimSpace root root
| family_WithAttrs h attrs (σ : World W) :
    family TrimSpace root h ->
    family TrimSpace root (WithAttrs h attrs σ).1
| family_WithGroup h name (σ : World W) :
    family TrimSpace root h ->
    family TrimSpace root (WithGroup TrimSpace h name σ).1.

(** [reach cwd TrimSpace σ hs]: a program that starts with an empty
    pool can be in the state [σ] holding the handlers [hs]: it creates
    handlers, derives handlers from those it holds, logs through them
    and moves its depth counters. *)
Inductive reach {W : Type} `{Writer W} `{EncoderText} (cwd : string)
  (TrimSpace : string -> string) : World W -> list Handler -> Prop :=
| reach_start σ :
    pool σ = [] -> reach cwd TrimSpace σ []
| reach_NewHandler σ hs o options :
    reach cwd TrimSpace σ hs ->
    reach cwd TrimSpace σ (NewHandler o options :: hs)
| reach_WithAttrs σ hs h attrs :
    reach cwd TrimSpace σ hs -> In h hs ->
    reach cwd TrimSpace (WithAttrs h attrs σ).2 ((WithAttrs h attrs σ).1 :: hs)
| reach_WithGroup σ hs h name :
    reach cwd TrimSpace σ hs -> In h hs ->
    reach cwd TrimSpace (WithGroup TrimSpace h name σ).2
      ((WithGroup TrimSpace h name σ).1 :: hs)
| reach_Handle σ hs h rec :
    reach cwd TrimSpace σ hs -> In h hs ->
    reach cwd TrimSpace (Handle cwd h rec σ).2 hs
| reach_valuers σ hs v :
    reach cwd TrimSpace σ hs ->
    reach cwd TrimSpace (setValuers v σ) hs.

(** [inplace σ0 b0 data σ b]: the appends that led from [b0] to [b]
    all went into the array of [b0]: no array was allocated. *)
Record inplace {W : Type} (σ0 : World W) (b0 : buffer) (data : list byte)
  (σ : World W) (b : buffer) : Prop := mkInplace {
  inplace_grown : grown σ0 b0 data σ b;
  inplace_arrays : length (arrays σ) = length (arrays σ0);
  inplace_arr : bufArr b = bufArr b0;
  inplace_cap : bufCap b = bufCap b0;
  inplace_len : bufLen b = (bufLen b0 + length data)%nat
}.

(** ** handler.go: the handler with the embedded depth counter *)

Module IndenterHandler.

Section Defs.

Context {W : Type} `{Writer W} `{EncoderText}.
Variable cwd : string.
Variable TrimSpace : string -> string.

Notation "'do' x <- c ; k" := (bind c (fun x => k))
  (at level 10, x name, c at level 100, k at level 200, only parsing).

(** HandlerOptions of handler.go: no indentation among the options. *)
Record Options := mkOptions {
  oAddSource : bool;
  oLevel : option Z;
  oNoColor : bool;
  oTimeFormat : string;
  oTheme : option Theme
}.

Definition zeroOptions : Options :=
  {| oAddSource := false; oLevel := None; oNoColor := false;
     oTimeFormat := ""; oTheme := None |}.

(** The options as the encoder sees them: the text of a token is given
    for options with an [Indent] field, which is empty here. *)
Definition liftOptions (o : Options) : HandlerOptions :=
  {| AddSource := oAddSource o; Level := oLevel o; NoColor := oNoColor o;
     TimeFormat := oTimeFormat o; optTheme := oTheme o;
     Indent := mkIndentation "" "" "" |}.

(** type Handler struct, with the embedded [indentation]. *)
Record Handler := mkHandler {
  hOpts : Options;
  hOut : nat;
  hGroup : string;
  hContext : buffer;
  hEnc : encoder;
  hIndentation : Embedded.indentation
}.

Definition zeroIndentation : Embedded.indentation :=
  Embedded.mkIndentationState "" "" 0.

(** func NewHandler(out io.Writer, opts *HandlerOptions) *Handler *)
Definition NewHandler (o : nat) (options : option Options) : Handler :=
  let opts0 := match options with Some x => x | None => zeroOptions end in
  let level := match oLevel opts0 with None => Some LevelInfo | l => l end in
  let timeFormat :=
    if isEmpty (oTimeFormat opts0) then DateTime else oTimeFormat opts0 in
  let theme :=
    match oTheme opts0 with None => Some NewDefaultTheme | t => t end in
  let opts1 :=
    {| oAddSource := oAddSource opts0; oLevel := level;
       oNoColor := oNoColor opts0; oTimeFormat := timeFormat;
       oTheme := theme |} in
  {| hOpts := opts1; hOut := o; hGroup := ""; hContext := nilBuffer;
     hEnc := {| encOpts := liftOptions opts1 |};
     hIndentation := zeroIndentation |}.

(** func (h *Handler) Enabled(_ context.Context, l slog.Level) bool *)
Definition Enabled (h : Handler) (l : Z) : option bool :=
  match oLevel (hOpts h) with
  | Some minimum => Some (minimum <=? l)
  | None => None
  end.

(** func (h *Handler) Handle(_ context.Context, rec slog.Record) error *)
Definition Handle (h : Handler) (rec : Record_) : M W (option error) :=
  do buf <- bufferPool_Get;
  do buf <- writeTimestamp (hEnc h) buf (recTime rec);
  do buf <- writeLevel (hEnc h) buf (recLevel rec);
  do buf <- (if oAddSource (hOpts h) && (0 <? recPC rec)%N
             then writeSource (hEnc h) buf (recPC rec) cwd
             else ret buf);
  do buf <- writeMessage (hEnc h) buf (recLevel rec)
              (Embedded.indentMsg (hIndentation h) (recMessage rec));
  do buf <- copy buf (hContext h);
  do buf <- rangeAttrs (fun buf a => writeAttr (hEnc h) buf a (hGroup h))
              (recAttrs rec) buf;
  do buf <- NewLine (hEnc h) buf;
  do r <- WriteTo buf (hOut h);
  match r with
  | (buf, Some err) =>
      let buf := Reset buf in
      do _ <- bufferPool_Put buf;
      ret (Some err)
  | (buf, None) =>
      do _ <- bufferPool_Put buf;
      ret None
  end.

(** func (h *Handler) WithAttrs(attrs []slog.Attr) slog.Handler; the
    struct literal names no [indentation]: the new handler has the zero
    value. *)
Definition WithAttrs (h : Handler) (attrs : list Attr) : M W Handler :=
  let newCtx := hContext h in
  do newCtx <- rangeAttrs (fun buf a => writeAttr (hEnc h) buf a (hGroup h))
                 attrs newCtx;
  let newCtx := Clip newCtx in
  ret {| hOpts := hOpts h; hOut := hOut h; hGroup := hGroup h;
         hContext := newCtx; hEnc := hEnc h;
         hIndentation := zeroIndentation |}.

(** func (h *Handler) WithGroup(name string) slog.Handler *)
Definition WithGroup (h : Handler) (name : string) : M W Handler :=
  let name := TrimSpace name in
  let name :=
    if negb (isEmpty (hGroup h)) then hGroup h +:+ "." +:+ name else name in
  ret {| hOpts := hOpts h; hOut := hOut h; hGroup := name;
         hContext := hContext h; hEnc := hEnc h;
         hIndentation := zeroIndentation |}.

Definition setIndentation (i : Embedded.indentation) (h : Handler) : Handler :=
  {| hOpts := hOpts h; hOut := hOut h; hGroup := hGroup h;
     hContext := hContext h; hEnc := hEnc h; hIndentation := i |}.

(** func (h *Handler) SetIndentation(prefix, indent string) *)
Definition SetIndentation (h : Handler) (p i : string) : Handler :=
  setIndentation (Embedded.SetIndentation (hIndentation h) p i) h.

(** func (h *Handler) Increment() *)
Definition Increment (h : Handler) : Handler :=
  setIndentation (Embedded.Increment (hIndentation h)) h.

(** func (h *Handler) Decrement() *)
Definition Decrement (h : Handler) : Handler :=
  setIndentation (Embedded.Decrement (hIndentation h)) h.

End Defs.

End IndenterHandler.

(** The handler of handler.go as a handler with the [Indentation]
    options left empty, and the record whose message is [msg]. *)
Definition asHandler (h : IndenterHandler.Handler) : Handler :=
  {| opts := IndenterHandler.liftOptions (IndenterHandler.hOpts h);
     out := IndenterHandler.hOut h;
     group := IndenterHandler.hGroup h;
     context := IndenterHandler.hContext h;
     enc := IndenterHandler.hEnc h |}.

Definition withMessage (msg : string) (rec : Record_) : Record_ :=
  {| recTime := recTime rec; recMessage := msg; recLevel := recLevel rec;
     recPC := recPC rec; recAttrs := recAttrs rec |}.

(** ** Facts about buffers *)

Section BufferFacts.

Context {W : Type}.
Implicit Types (σ : World W) (b c : buffer).

Lemma growCap_ge old needed : (needed <= growCap old needed)%nat.
Proof. unfold growCap. lia. Qed.

Lemma validBuffer_nil σ b :
  bufArr b = None ->
  validBuffer σ b = true <-> bufLen b = 0%nat /\ bufCap b = 0%nat.
Proof.
  intros E. unfold validBuffer. rewrite E.
  rewrite andb_true_iff, !Nat.eqb_eq. tauto.
Qed.

Lemma validBuffer_array σ b p :
  bufArr b = Some p ->
  validBuffer σ b = true <->
  exists a, arrays σ !! p = Some a /\
            (bufLen b <= bufCap b)%nat /\ (bufCap b <= length a)%nat.
Proof.
  intros E. unfold validBuffer. rewrite E.
  destruct (arrays σ !! p) as [a|]; split.
  - rewrite andb_true_iff, !Nat.leb_le. intros [? ?]. eauto.
  - intros (a' & [= <-] & ? & ?). rewrite andb_true_iff, !Nat.leb_le. auto.
  - discriminate.
  - intros (a' & ? & _). discriminate.
Qed.

Lemma bytes_length σ b :
  validBuffer σ b = true -> length (bytes σ b) = bufLen b.
Proof.
  intros Hv. unfold bytes. destruct (bufArr b) as [p|] eqn:E.
  - destruct (proj1 (validBuffer_array _ _ _ E) Hv) as (a & Ha & ? & ?).
    rewrite Ha. simpl. rewrite length_take. lia.
  - destruct (proj1 (validBuffer_nil _ _ E) Hv) as [-> _]. reflexivity.
Qed.

Lemma grown_refl σ b : validBuffer σ b = true -> grown σ b [] σ b.
Proof.
  intros Hv. constructor; auto.
  - by rewrite app_nil_r.
  - intros q a0 Hq. exists a0. auto.
Qed.

(** One append keeps the relation, whichever way Go's append goes. *)
Lemma Append_grown σ0 b0 d σ b x :
  grown σ0 b0 d σ b ->
  grown σ0 b0 (d ++ x) (Append b x σ).2 (Append b x σ).1.
Proof.
  intros [Hv Hb Hl Ha Hn Hf Hp Hs Hvs].
  unfold Append.
  destruct (bufLen b + length x <=? bufCap b)%nat eqn:Hfit;
    [apply Nat.leb_le in Hfit|apply Nat.leb_gt in Hfit; rename Hfit into Hfull].
  - destruct (bufArr b) as [p|] eqn:E.
    + destruct (proj1 (validBuffer_array _ _ _ E) Hv) as (a & Hpa & Hlc & Hca).
      assert (Hp_lt : (p < length (arrays σ))%nat)
        by (apply lookup_lt_is_Some; eauto).
      set (a' := take (bufLen b) a ++ x ++ drop (bufLen b + length x) a).
      assert (Hlen' : length a' = length a).
      { unfold a'. rewrite !length_app, length_take, length_drop. lia. }
      assert (Htake : take (bufLen b + length x) a' = take (bufLen b) a ++ x).
      { unfold a'. rewrite app_assoc.
        rewrite take_app_length'; [done|].
        rewrite length_app, length_take. lia. }
      simpl. rewrite Hpa. simpl. fold a'.
      constructor; simpl.
      * unfold validBuffer; simpl.
        rewrite list_lookup_insert_eq by done.
        rewrite andb_true_iff, !Nat.leb_le. lia.
      * unfold bytes at 1; simpl.
        rewrite list_lookup_insert_eq by done. simpl.
        rewrite Htake, app_assoc, <- Hb.
        unfold bytes. rewrite E, Hpa. reflexivity.
      * lia.
      * destruct Ha as [[Ha Hc]|(q & Hq & Hge)]; [left|right]; eauto.
      * by rewrite length_insert.
      * intros q a0 Hq0.
        destruct (Hf q a0 Hq0) as (aq & Haq & Hlq & Htq & Hdq & Hneq).
        destruct (decide (q = p)) as [->|Hqp].
        -- exists a'. rewrite list_lookup_insert_eq by done.
           rewrite Hpa in Haq. injection Haq as <-.
           split; [done|]. split; [congruence|].
           assert (Hq_lt : (p < length (arrays σ0))%nat)
             by (apply lookup_lt_is_Some; eauto).
           destruct Ha as [[Ha Hc]|(q & Hq & Hge)];
             [|injection Hq as <-; lia].
           split; [|split].
           ++ rewrite <- Htq. unfold a'.
              rewrite take_app_le by (rewrite length_take; lia).
              rewrite take_take. f_equal. lia.
           ++ rewrite <- Hdq. unfold a'. rewrite app_assoc.
              rewrite drop_app_ge
                by (rewrite length_app, length_take; lia).
              rewrite drop_drop. f_equal.
              rewrite length_app, length_take. lia.
           ++ intros Hne. congruence.
        -- exists aq. rewrite list_lookup_insert_ne by done. auto.
      * done.
      * done.
      * done.
    + destruct (proj1 (validBuffer_nil _ _ E) Hv) as [Hl0 Hc0].
      assert (x = []) as -> by (apply length_zero_iff_nil; lia).
      simpl. rewrite app_nil_r. rewrite <- E in Ha.
      constructor; auto.
  - set (n := (bufLen b + length x)%nat).
    set (c := growCap (bufCap b) n).
    pose proof (growCap_ge (bufCap b) n) as Hc. fold c in Hc.
    pose proof (bytes_length _ _ Hv) as Hbl.
    simpl.
    constructor; simpl.
    + unfold validBuffer; simpl.
      rewrite lookup_app_r by lia. rewrite Nat.sub_diag. simpl.
      rewrite andb_true_iff, !Nat.leb_le.
      rewrite !length_app, length_replicate, Hbl. fold n. lia.
    + unfold bytes at 1; simpl.
      rewrite lookup_app_r by lia. rewrite Nat.sub_diag. simpl.
      rewrite app_assoc, take_app_length'
        by (rewrite length_app, Hbl; reflexivity).
      by rewrite Hb, app_assoc.
    + lia.
    + right. eexists. split; [reflexivity|lia].
    + rewrite length_app. simpl. lia.
    + intros q a0 Hq0.
      destruct (Hf q a0 Hq0) as (aq & Haq & Hrest).
      exists aq. split; [|done].
      rewrite lookup_app_l; [done|]. apply lookup_lt_is_Some; eauto.
    + done.
    + done.
    + done.
Qed.

End BufferFacts.

(** ** Facts about the appends of the handler *)

Section AppendFacts.

Context {W : Type} `{Writer W} `{EncoderText}.
Variable cwd : string.
Implicit Types (σ : World W) (b c : buffer) (h : Handler).

Lemma Append_grown_eq σ0 b0 d σ b x b' σ' :
  grown σ0 b0 d σ b -> Append b x σ = (b', σ') ->
  grown σ0 b0 (d ++ x) σ' b'.
Proof.
  intros G E. pose proof (Append_grown _ _ _ _ _ x G) as G'.
  rewrite E in G'. exact G'.
Qed.

(** Validity never gets lost: arrays keep their capacity. *)
Lemma grown_valid_mono σ0 b0 d σ b c :
  grown σ0 b0 d σ b -> validBuffer σ0 c = true -> validBuffer σ c = true.
Proof.
  intros G Hv. destruct (bufArr c) as [p|] eqn:E.
  - destruct (proj1 (validBuffer_array _ _ _ E) Hv) as (a0 & Ha0 & ? & ?).
    destruct (grown_frame _ _ _ _ _ G p a0 Ha0) as (a & Ha & Hl & _).
    apply (validBuffer_array _ _ _ E). exists a. split; [done|]. lia.
  - apply (validBuffer_nil _ _ E). by apply (validBuffer_nil σ0 _ E).
Qed.

(** The content of another buffer is kept when it lives in another
    array, or when the buffer that grew had no spare capacity. *)
Lemma grown_bytes_kept σ0 b0 d σ b c :
  grown σ0 b0 d σ b -> validBuffer σ0 c = true ->
  sameArray b0 c = false \/ bufCap b0 = bufLen b0 ->
  bytes σ c = bytes σ0 c.
Proof.
  intros G Hv Hsep. unfold bytes. destruct (bufArr c) as [p|] eqn:E; [|done].
  destruct (proj1 (validBuffer_array _ _ _ E) Hv) as (a0 & Ha0 & ? & ?).
  destruct (grown_frame _ _ _ _ _ G p a0 Ha0)
    as (a & Ha & Hl & Ht & Hd & Hne).
  rewrite Ha, Ha0. simpl. f_equal.
  destruct Hsep as [Hsep|Hclip].
  - apply Hne. intros Eb. unfold sameArray in Hsep.
    rewrite Eb, E in Hsep. by rewrite Nat.eqb_refl in Hsep.
  - rewrite Hclip in Hd.
    rewrite <- (take_drop (bufLen b0) a), <- (take_drop (bufLen b0) a0).
    congruence.
Qed.

Lemma writeAttr_grown σ0 b0 d σ b e a g b' σ' :
  grown σ0 b0 d σ b -> writeAttr e b a g σ = (b', σ') ->
  grown σ0 b0 (d ++ attrText (encOpts e) (valuers σ0) a g) σ' b'.
Proof.
  intros G E. unfold writeAttr in E.
  rewrite (grown_valuers _ _ _ _ _ G) in E.
  eapply Append_grown_eq; eauto.
Qed.

Lemma rangeAttrs_grown e g attrs : forall σ0 b0 d σ b b' σ',
  grown σ0 b0 d σ b ->
  rangeAttrs (fun buf a => writeAttr e buf a g) attrs b σ = (b', σ') ->
  grown σ0 b0 (d ++ attrsText (encOpts e) (valuers σ0) attrs g) σ' b'.
Proof.
  induction attrs as [|a attrs IH]; intros σ0 b0 d σ b b' σ' G E.
  - injection E as <- <-. unfold attrsText. simpl. by rewrite app_nil_r.
  - simpl in E. unfold bind in E.
    destruct (writeAttr e b a g σ) as [b1 σ1] eqn:E1.
    pose proof (writeAttr_grown _ _ _ _ _ _ _ _ _ _ G E1) as G1.
    pose proof (IH _ _ _ _ _ _ _ G1 E) as G2.
    unfold attrsText in *. simpl. by rewrite app_assoc.
Qed.

Lemma copy_grown σ0 b0 d σ b c b' σ' :
  grown σ0 b0 d σ b -> validBuffer σ0 c = true ->
  sameArray b0 c = false \/ bufCap b0 = bufLen b0 ->
  copy b c σ = (b', σ') ->
  grown σ0 b0 (d ++ bytes σ0 c) σ' b'.
Proof.
  intros G Hv Hsep E. unfold copy in E.
  rewrite (grown_bytes_kept _ _ _ _ _ _ G Hv Hsep) in E.
  eapply Append_grown_eq; eauto.
Qed.

(** Message, context and attributes: the middle of a line. *)
Lemma body_grown σ0 b0 d σ b h rec msg attrs b' σ' :
  grown σ0 b0 d σ b -> validBuffer σ0 (context h) = true ->
  sameArray b0 (context h) = false \/ bufCap b0 = bufLen b0 ->
  bind (writeMessage (enc h) b (recLevel rec) msg) (fun buf =>
  bind (copy buf (context h)) (fun buf =>
  rangeAttrs (fun buf a => writeAttr (enc h) buf a (group h)) attrs buf))
    σ = (b', σ') ->
  grown σ0 b0
    (d ++ messageText (encOpts (enc h)) (recLevel rec) msg
       ++ bytes σ0 (context h)
       ++ attrsText (encOpts (enc h)) (valuers σ0) attrs (group h)) σ' b'.
Proof.
  intros G Hv Hsep E. unfold bind, writeMessage in E.
  destruct (Append b _ σ) as [b1 σ1] eqn:E1.
  pose proof (Append_grown_eq _ _ _ _ _ _ _ _ G E1) as G1.
  destruct (copy b1 (context h) σ1) as [b2 σ2] eqn:E2.
  pose proof (copy_grown _ _ _ _ _ _ _ _ G1 Hv Hsep E2) as G2.
  pose proof (rangeAttrs_grown _ _ _ _ _ _ _ _ _ _ G2 E) as G3.
  by rewrite <- !app_assoc in G3.
Qed.

(** Filling the buffer appends the line of the record. *)
Lemma fillBuffer_grown σ0 b0 d σ b h rec b' σ' :
  grown σ0 b0 d σ b -> validBuffer σ0 (context h) = true ->
  sameArray b0 (context h) = false \/ bufCap b0 = bufLen b0 ->
  fillBuffer cwd h rec b σ = (b', σ') ->
  grown σ0 b0
    (d ++ lineText cwd h rec (bytes σ0 (context h)) (valuers σ0)) σ' b'.
Proof.
  intros G Hv Hsep E. unfold fillBuffer in E.
  unfold bind at 1 in E. unfold writeTimestamp in E.
  destruct (Append b _ σ) as [b1 σ1] eqn:E1.
  pose proof (Append_grown_eq _ _ _ _ _ _ _ _ G E1) as G1.
  unfold bind at 1 in E. unfold writeLevel in E.
  destruct (Append b1 _ σ1) as [b2 σ2] eqn:E2.
  pose proof (Append_grown_eq _ _ _ _ _ _ _ _ G1 E2) as G2.
  unfold bind at 1 in E.
  assert (exists b3 σ3,
    (if AddSource (opts h) && (0 <? recPC rec)%N
     then writeSource (enc h) b2 (recPC rec) cwd else ret b2) σ2 = (b3, σ3)
    /\ grown σ0 b0 (d ++ headerText cwd h rec) σ3 b3) as (b3 & σ3 & E3 & G3).
  { unfold headerText.
    destruct (AddSource (opts h) && (0 <? recPC rec)%N).
    - unfold writeSource.
      destruct (Append b2 _ σ2) as [b3 σ3] eqn:E3.
      exists b3, σ3. split; [done|].
      pose proof (Append_grown_eq _ _ _ _ _ _ _ _ G2 E3) as G3.
      by rewrite <- !app_assoc in G3.
    - exists b2, σ2. split; [done|].
      rewrite app_nil_r. by rewrite <- !app_assoc in G2. }
  rewrite E3 in E. clear E1 E2 E3 G G1 G2.
  unfold bind at 1 in E. unfold lineText, lineOf.
  destruct (isZero (Indent (opts h))).
  - match type of E with
    | (let '(_, _) := ?c in _) = _ => destruct c as [b4 σ4] eqn:E4
    end.
    pose proof (body_grown _ _ _ _ _ _ _ _ _ _ _ G3 Hv Hsep E4) as G4.
    unfold NewLine in E.
    pose proof (Append_grown_eq _ _ _ _ _ _ _ _ G4 E) as G5.
    by rewrite <- !app_assoc in G5.
  - rewrite (grown_valuers _ _ _ _ _ G3) in E.
    destruct (scanAttrs _ _ _) as [attributes depth].
    match type of E with
    | (let '(_, _) := ?c in _) = _ => destruct c as [b4 σ4] eqn:E4
    end.
    pose proof (body_grown _ _ _ _ _ _ _ _ _ _ _ G3 Hv Hsep E4) as G4.
    unfold NewLine in E.
    pose proof (Append_grown_eq _ _ _ _ _ _ _ _ G4 E) as G5.
    by rewrite <- !app_assoc in G5.
Qed.

End AppendFacts.

(** ** Facts about Handle and the derivations *)

Section HandlerFacts.

Context {W : Type} `{Writer W} `{EncoderText}.
Variable cwd : string.
Implicit Types (σ : World W) (b c : buffer) (h : Handler).

Lemma validBuffer_arrays σ σ' b :
  arrays σ' = arrays σ -> validBuffer σ' b = validBuffer σ b.
Proof. intros E. unfold validBuffer. by rewrite E. Qed.

Lemma bytes_arrays σ σ' b :
  arrays σ' = arrays σ -> bytes σ' b = bytes σ b.
Proof. intros E. unfold bytes. by rewrite E. Qed.

Lemma validBuffer_lt σ b p :
  validBuffer σ b = true -> bufArr b = Some p ->
  (p < length (arrays σ))%nat.
Proof.
  intros Hv E.
  destruct (proj1 (validBuffer_array _ _ _ E) Hv) as (a & Ha & _).
  apply lookup_lt_is_Some. eauto.
Qed.

Lemma contextOK_inv σ h :
  contextOK σ h = true ->
  validBuffer σ (context h) = true /\
  bufCap (context h) = bufLen (context h) /\
  (forall b, In b (pool σ) -> sameArray b (context h) = false).
Proof.
  unfold contextOK. rewrite !andb_true_iff, Nat.eqb_eq, forallb_forall.
  intros [[Hv Hc] Hp]. repeat split; auto.
  intros b Hb. apply negb_true_iff. auto.
Qed.

Lemma poolOK_inv σ b :
  poolOK σ = true -> In b (pool σ) ->
  validBuffer σ b = true /\ bufLen b = 0%nat.
Proof.
  unfold poolOK. rewrite forallb_forall. intros Hp Hb.
  specialize (Hp b Hb). rewrite andb_true_iff, Nat.eqb_eq in Hp. done.
Qed.

(** A header over a new array is not a header over an old one. *)
Lemma sameArray_fresh σ b c q :
  validBuffer σ c = true -> bufArr b = Some q ->
  (length (arrays σ) <= q)%nat -> sameArray b c = false.
Proof.
  intros Hv Eb Hq. unfold sameArray. rewrite Eb.
  destruct (bufArr c) as [p|] eqn:Ec; [|done].
  pose proof (validBuffer_lt _ _ _ Hv Ec). apply Nat.eqb_neq. lia.
Qed.

Lemma Handle_unfold h rec σ :
  Handle cwd h rec σ =
  let '(b0, σ0) := bufferPool_Get σ in
  let '(b1, σ1) := fillBuffer cwd h rec b0 σ0 in
  flushBuffer h b1 σ1.
Proof.
  unfold Handle, fillBuffer, flushBuffer, bind, ret.
  destruct (bufferPool_Get σ) as [b0 σ0].
  destruct (writeTimestamp _ _ _ _) as [b1 σ1].
  destruct (writeLevel _ _ _ _) as [b2 σ2].
  destruct (AddSource (opts h) && (0 <? recPC rec)%N);
    [destruct (writeSource _ _ _ _ _) as [b3 σ3]|];
    (destruct (isZero (Indent (opts h)));
     [|destruct (scanAttrs _ _ _) as [attributes depth]]);
    destruct (writeMessage _ _ _ _ _) as [b4 σ4];
    destruct (copy _ _ _) as [b5 σ5];
    destruct (rangeAttrs _ _ _ _) as [b6 σ6];
    destruct (NewLine _ _ _) as [b7 σ7];
    destruct (WriteTo _ _ _) as [[b8 [e|]] σ8];
    reflexivity.
Qed.

(** What one call of Handle does, from a well-formed state: the
    buffer that comes back from the pool grows by the line of the
    record, the line is written once, and the buffer goes back to the
    pool, emptied. *)
Lemma Handle_spec h rec σ :
  poolOK σ = true -> contextOK σ h = true ->
  exists b σ1,
    grown (setPool (tail (pool σ)) σ) (hd nilBuffer (pool σ))
      (lineText cwd h rec (bytes σ (context h)) (valuers σ)) σ1 b
    /\ bufLen (hd nilBuffer (pool σ)) = 0%nat
    /\ sameArray (hd nilBuffer (pool σ)) (context h) = false
    /\ Handle cwd h rec σ =
       ((Write (sinks σ (out h))
           (lineText cwd h rec (bytes σ (context h)) (valuers σ))).2,
        setPool (Reset b :: tail (pool σ))
          (setSink (out h)
             (Write (sinks σ (out h))
                (lineText cwd h rec (bytes σ (context h)) (valuers σ))).1
             σ1)).
Proof.
  intros Hpool Hctx.
  destruct (contextOK_inv _ _ Hctx) as (Hv & Hclip & Hsep).
  set (b0 := hd nilBuffer (pool σ)).
  set (σ0 := setPool (tail (pool σ)) σ).
  assert (Hget : bufferPool_Get σ = (b0, σ0)).
  { unfold bufferPool_Get, b0, σ0. destruct σ as [A P S V]. simpl.
    destruct P; reflexivity. }
  assert (Hb0 : validBuffer σ0 b0 = true /\ bufLen b0 = 0%nat
                /\ sameArray b0 (context h) = false).
  { unfold b0. destruct (pool σ) as [|b rest] eqn:Ep; simpl.
    - done.
    - destruct (poolOK_inv σ b Hpool) as [Hvb Hlb];
        [first [by left|rewrite Ep; by left]|].
      split; [|split]; [done|done|].
      apply Hsep. first [by left|rewrite Ep; by left]. }
  destruct Hb0 as (Hv0 & Hl0 & Hs0).
  rewrite Handle_unfold, Hget.
  destruct (fillBuffer cwd h rec b0 σ0) as [b1 σ1] eqn:Ef.
  pose proof (fillBuffer_grown cwd σ0 b0 [] σ0 b0 h rec b1 σ1
                (grown_refl _ _ Hv0) Hv (or_introl Hs0) Ef) as G.
  simpl in G. change (bytes σ0 (context h)) with (bytes σ (context h)) in G.
  change (valuers σ0) with (valuers σ) in G.
  exists b1, σ1. split; [exact G|]. split; [exact Hl0|]. split; [exact Hs0|].
  unfold flushBuffer, bind, WriteTo.
  rewrite (grown_bytes _ _ _ _ _ G), (grown_sinks _ _ _ _ _ G).
  assert (bytes σ0 b0 = []) as ->.
  { unfold bytes. destruct (bufArr b0); [|done]. by rewrite Hl0. }
  simpl.
  destruct (Write _ _) as [w [e|]]; simpl;
    unfold bufferPool_Put, ret, setPool, setSink; simpl;
    rewrite (grown_pool _ _ _ _ _ G); reflexivity.
Qed.

(** The observable effects of one call of Handle. *)
Lemma Handle_post h rec σ :
  poolOK σ = true -> contextOK σ h = true ->
  let line := lineText cwd h rec (bytes σ (context h)) (valuers σ) in
  let wr := Write (sinks σ (out h)) line in
  let σ' := (Handle cwd h rec σ).2 in
  (Handle cwd h rec σ).1 = wr.2
  /\ sinks σ' = (fun i => if Nat.eqb i (out h) then wr.1 else sinks σ i)
  /\ valuers σ' = valuers σ
  /\ (exists b, pool σ' = b :: tail (pool σ) /\ bufLen b = 0%nat)
  /\ poolOK σ' = true
  /\ (forall c, validBuffer σ c = true ->
        validBuffer σ' c = true /\
        (sameArray (hd nilBuffer (pool σ)) c = false ->
         bytes σ' c = bytes σ c))
  /\ (forall h', contextOK σ h' = true ->
        contextOK σ' h' = true /\
        bytes σ' (context h') = bytes σ (context h')).
Proof.
  intros Hpool Hctx line wr σ'.
  destruct (Handle_spec h rec σ Hpool Hctx) as (b & σ1 & G & Hl0 & Hs0 & E).
  fold line in G, E. fold wr in E.
  unfold σ'. rewrite E. simpl. clear σ' E.
  set (σ0 := setPool (tail (pool σ)) σ) in *.
  set (b0 := hd nilBuffer (pool σ)) in *.
  assert (Hvalid : forall c, validBuffer σ c = true ->
            validBuffer σ1 c = true).
  { intros c Hc. exact (grown_valid_mono _ _ _ _ _ c G Hc). }
  assert (Hrest : forall c, In c (tail (pool σ)) -> In c (pool σ)).
  { intros c. destruct (pool σ); simpl; auto. }
  split; [done|]. split.
  { by rewrite (grown_sinks _ _ _ _ _ G). }
  split. { by rewrite (grown_valuers _ _ _ _ _ G). }
  split. { eexists. split; reflexivity. }
  split.
  { unfold poolOK. simpl. apply andb_true_iff. split.
    - apply andb_true_iff. split; [|done].
      pose proof (grown_valid _ _ _ _ _ G) as Hvb.
      unfold validBuffer in *. simpl.
      destruct (bufArr b) as [p|]; simpl in *.
      + destruct (arrays σ1 !! p); [|done].
        apply andb_true_iff in Hvb as [_ Hcap]. by rewrite Hcap.
      + apply andb_true_iff in Hvb as [_ Hcap]. by rewrite Hcap.
    - apply forallb_forall. intros c Hc.
      destruct (poolOK_inv σ c Hpool (Hrest c Hc)) as [Hvc Hlc].
      apply andb_true_iff. split; [|by apply Nat.eqb_eq].
      rewrite (validBuffer_arrays σ1) by reflexivity. apply Hvalid, Hvc. }
  split.
  { intros c Hc. split.
    - rewrite (validBuffer_arrays σ1) by reflexivity. apply Hvalid, Hc.
    - intros Hsep. rewrite (bytes_arrays σ1) by reflexivity.
      exact (grown_bytes_kept _ _ _ _ _ c G Hc (or_introl Hsep)). }
  intros h' Hctx'.
  destruct (contextOK_inv _ _ Hctx') as (Hv' & Hclip' & Hsep').
  assert (Hs0' : sameArray b0 (context h') = false).
  { unfold b0. destruct (pool σ) as [|c rest] eqn:Ep; [done|].
    apply Hsep'. first [by left|rewrite Ep; by left]. }
  split.
  - unfold contextOK. simpl.
    rewrite !andb_true_iff, Nat.eqb_eq. repeat split; [|done| |].
    + rewrite (validBuffer_arrays σ1) by reflexivity. apply Hvalid, Hv'.
    + apply negb_true_iff.
      destruct (grown_arr _ _ _ _ _ G) as [[Ea _]|(q & Eq & Hq)].
      * unfold sameArray in *. simpl. by rewrite Ea.
      * eapply (sameArray_fresh σ); eauto.
    + apply forallb_forall. intros c Hc. apply negb_true_iff.
      apply Hsep', Hrest, Hc.
  - rewrite (bytes_arrays σ1) by reflexivity.
    exact (grown_bytes_kept _ _ _ _ _ _ G Hv' (or_introl Hs0')).
Qed.

(** Deriving a handler with bound attributes: the new context is the
    old one followed by the text of the attributes, and no existing
    array is written to. *)
Lemma WithAttrs_post h attrs σ :
  contextOK σ h = true ->
  let h' := (WithAttrs h attrs σ).1 in
  let σ' := (WithAttrs h attrs σ).2 in
  opts h' = opts h /\ out h' = out h /\ group h' = group h /\ enc h' = enc h
  /\ bytes σ' (context h') =
     bytes σ (context h)
     ++ attrsText (encOpts (enc h)) (valuers σ) attrs (group h)
  /\ pool σ' = pool σ /\ sinks σ' = sinks σ /\ valuers σ' = valuers σ
  /\ (forall c, validBuffer σ c = true ->
        validBuffer σ' c = true /\ bytes σ' c = bytes σ c)
  /\ (poolOK σ = true -> poolOK σ' = true /\ contextOK σ' h' = true)
  /\ (forall h'', contextOK σ h'' = true -> contextOK σ' h'' = true).
Proof.
  intros Hctx h' σ'.
  destruct (contextOK_inv _ _ Hctx) as (Hv & Hclip & Hsep).
  unfold h', σ', WithAttrs, bind, ret. clear h' σ'.
  destruct (rangeAttrs _ attrs (context h) σ) as [b σ1] eqn:E.
  pose proof (rangeAttrs_grown _ _ _ _ _ _ _ _ _ _ (grown_refl _ _ Hv) E) as G.
  simpl in G. simpl.
  assert (Hkept : forall c, validBuffer σ c = true ->
            validBuffer σ1 c = true /\ bytes σ1 c = bytes σ c).
  { intros c Hc. split.
    - eapply grown_valid_mono; eauto.
    - eapply grown_bytes_kept; eauto. }
  assert (HctxOK : forall h'', contextOK σ h'' = true ->
            contextOK σ1 h'' = true).
  { intros h'' Hctx''.
    destruct (contextOK_inv _ _ Hctx'') as (Hv'' & Hclip'' & Hsep'').
    unfold contextOK. rewrite !andb_true_iff, Nat.eqb_eq.
    repeat split; [by apply Hkept|done|].
    rewrite (grown_pool _ _ _ _ _ G).
    apply forallb_forall. intros c Hc. apply negb_true_iff. auto. }
  repeat split; auto.
  - apply (grown_bytes _ _ _ _ _ G).
  - apply (grown_pool _ _ _ _ _ G).
  - apply (grown_sinks _ _ _ _ _ G).
  - apply (grown_valuers _ _ _ _ _ G).
  - by apply Hkept.
  - by apply Hkept.
  - match goal with Hp : poolOK σ = true |- _ => rename Hp into Hpool end.
    unfold poolOK. rewrite (grown_pool _ _ _ _ _ G).
    apply forallb_forall. intros c Hc.
    destruct (poolOK_inv σ c Hpool Hc) as [Hvc Hlc].
    apply andb_true_iff. split; [by apply Hkept|by apply Nat.eqb_eq].
  - match goal with Hp : poolOK σ = true |- _ => rename Hp into Hpool end.
    unfold contextOK. simpl.
    rewrite !andb_true_iff, Nat.eqb_eq. repeat split.
    + pose proof (grown_valid _ _ _ _ _ G) as Hvb.
      unfold validBuffer in *. simpl.
      destruct (bufArr b) as [p|]; simpl in *.
      * destruct (arrays σ1 !! p); [|done].
        apply andb_true_iff in Hvb as [Hlen Hcap].
        apply Nat.leb_le in Hlen, Hcap.
        apply andb_true_iff. split; apply Nat.leb_le; lia.
      * apply andb_true_iff in Hvb as [Hlen _]. by rewrite Hlen.
    + rewrite (grown_pool _ _ _ _ _ G).
      apply forallb_forall. intros c Hc. apply negb_true_iff.
      destruct (grown_arr _ _ _ _ _ G) as [[Ea _]|(q & Eq & Hq)].
      * specialize (Hsep c Hc). unfold sameArray in *. simpl.
        by rewrite Ea.
      * destruct (poolOK_inv σ c Hpool Hc) as [Hvc _].
        unfold sameArray. simpl. rewrite Eq.
        destruct (bufArr c) as [p|] eqn:Ec; [|done].
        pose proof (validBuffer_lt _ _ _ Hvc Ec).
        apply Nat.eqb_neq. lia.
Qed.

End HandlerFacts.

(** ** Indentation *)

Lemma append_nil_r (s : string) : s +:+ "" = s.
Proof.
  induction s as [|c s IH]; [done|].
  change (String c (s +:+ "") = String c s). by rewrite IH.
Qed.

Lemma append_assoc (s1 s2 s3 : string) :
  (s1 +:+ s2) +:+ s3 = s1 +:+ (s2 +:+ s3).
Proof.
  induction s1 as [|c s1 IH]; [done|].
  change (String c ((s1 +:+ s2) +:+ s3) = String c (s1 +:+ s2 +:+ s3)).
  by rewrite IH.
Qed.

Lemma isEmpty_true (s : string) : isEmpty s = true <-> s = "".
Proof. unfold isEmpty. apply String.eqb_eq. Qed.

Lemma repeatString_empty (n : nat) : repeatString "" n = "".
Proof. induction n as [|n IH]; simpl; done. Qed.

(** The counting loop writes the text [n] times after what the builder
    already holds. *)
Lemma writeTimes_repeat (n : nat) (s builder : string) :
  writeTimes n s builder = builder +:+ repeatString s n.
Proof.
  revert builder.
  induction n as [|n IH]; intros builder; cbn [writeTimes repeatString].
  - by rewrite append_nil_r.
  - by rewrite IH, append_assoc.
Qed.

Lemma indentString_nonpositive (indent : Indentation) (depth : Z) :
  depth <= 0 -> indentString indent depth = "".
Proof.
  intros Hd. unfold indentString.
  apply Z.leb_le in Hd. rewrite Hd. by rewrite orb_true_r.
Qed.

Lemma indentString_positive (indent : Indentation) (depth : Z) :
  0 < depth ->
  indentString indent depth
  = Prefix indent +:+ repeatString (Tab indent) (Z.to_nat depth).
Proof.
  intros Hd. unfold indentString, isZero.
  apply Z.leb_gt in Hd. rewrite Hd, orb_false_r.
  destruct (isEmpty (Prefix indent)) eqn:Ep;
    destruct (isEmpty (Tab indent)) eqn:Et; simpl.
  - apply isEmpty_true in Ep. apply isEmpty_true in Et.
    rewrite Ep, Et, repeatString_empty. reflexivity.
  - apply isEmpty_true in Ep. rewrite writeTimes_repeat, Ep. reflexivity.
  - apply isEmpty_true in Et.
    rewrite Et, repeatString_empty, append_nil_r. reflexivity.
  - rewrite writeTimes_repeat. reflexivity.
Qed.

Lemma indentString_zero_config (indent : Indentation) (depth : Z) :
  isZero indent = true -> indentString indent depth = "".
Proof. intros Hz. unfold indentString. by rewrite Hz. Qed.

(** The older indentMsg always puts the prefix and the repeated indent
    before the message. *)
Lemma indentMsg_spec (hd : Embedded.indentation) (msg : string) :
  Embedded.indentMsg hd msg
  = Embedded.prefix hd
    +:+ repeatString (Embedded.indent hd) (N.to_nat (Embedded.depth hd))
    +:+ msg.
Proof.
  unfold Embedded.indentMsg.
  destruct (isEmpty (Embedded.prefix hd)) eqn:Ep;
    destruct (isEmpty (Embedded.indent hd)) eqn:Ei;
    destruct (Embedded.depth hd <? 1)%N eqn:Ed;
    try apply isEmpty_true in Ep; try apply isEmpty_true in Ei;
    try (apply N.ltb_lt in Ed;
         assert (Embedded.depth hd = 0%N) as -> by lia);
    try (apply N.ltb_ge in Ed;
         assert ((0 <? Embedded.depth hd)%N = true) as ->
           by (apply N.ltb_lt; lia));
    rewrite ?Ep, ?Ei; simpl;
    rewrite ?writeTimes_repeat, ?repeatString_empty; simpl;
    rewrite ?append_assoc; reflexivity.
Qed.

(** C4 (amended). indentString is a function of the options and the
    depth: it is empty for every depth of 0 or less, with or without a
    prefix (the guard [isZero || depth <= 0]); for every depth n > 0 it
    is the prefix followed by the tab string repeated exactly n times;
    and when both prefix and tab are empty it is always empty. The
    indentMsg of the older handler.go always writes the prefix, the
    indent repeated depth times, and the message: there the prefix
    alone comes before the message at depth 0. *)
Theorem indentString_spec :
  (forall indent depth, depth <= 0 -> indentString indent depth = "") /\
  (forall indent depth, 0 < depth ->
     indentString indent depth
     = Prefix indent +:+ repeatString (Tab indent) (Z.to_nat depth)) /\
  (forall indent depth, isZero indent = true ->
     indentString indent depth = "") /\
  (forall hd msg,
     Embedded.indentMsg hd msg
     = Embedded.prefix hd
       +:+ repeatString (Embedded.indent hd) (N.to_nat (Embedded.depth hd))
       +:+ msg).
Proof.
  split; [exact indentString_nonpositive|].
  split; [exact indentString_positive|].
  split; [exact indentString_zero_config|exact indentMsg_spec].
Qed.

Lemma indentString_spec_witness :
  indentString (mkIndentation ">" "  " "depth") 0 = "" /\
  indentString (mkIndentation ">" "  " "depth") 3 = ">      " /\
  indentString (mkIndentation "" "" "depth") 3 = "" /\
  Embedded.indentMsg (Embedded.mkIndentationState ">" "  " 0) "m" = ">m".
Proof.
  destruct indentString_spec as (Hle & Hgt & Hzero & Hmsg).
  split; [apply Hle; lia|].
  split; [rewrite Hgt by lia; reflexivity|].
  split; [apply Hzero; reflexivity|].
  rewrite Hmsg. reflexivity.
Defined.

(** C4, the claim as stated fails: with the prefix ">" configured,
    indentString at depth 0 is the empty string and not the prefix
    alone (the indentMsg of the older handler.go gives the prefix
    there); for depth 1 both give the prefix and one tab. *)
Theorem indentString_zero_depth_drops_prefix :
  isZero (mkIndentation ">" "  " "depth") = false /\
  indentString (mkIndentation ">" "  " "depth") 0 = "" /\
  indentString (mkIndentation ">" "  " "depth") 0
  <> Prefix (mkIndentation ">" "  " "depth") /\
  Embedded.indentMsg (Embedded.mkIndentationState ">" "  " 0) "" = ">" /\
  indentString (mkIndentation ">" "  " "depth") 1 = ">  " /\
  Embedded.indentMsg (Embedded.mkIndentationState ">" "  " 1) "" = ">  ".
Proof.
  split; [reflexivity|]. split; [reflexivity|]. split; [discriminate|].
  repeat split.
Qed.

(** C7. DefaultIndentation ignores its argument: the tab is two spaces,
    the prefix is empty and the key is "depth", whatever [tab] is. *)
Theorem DefaultIndentation_ignores_tab (tab : string) :
  Tab (DefaultIndentation tab) = "  " /\
  Prefix (DefaultIndentation tab) = "" /\
  Key (DefaultIndentation tab) = "depth" /\
  DefaultIndentation tab = DefaultIndentation "".
Proof. repeat split. Qed.

(** ** DepthValuer *)

Lemma wrap64_id (z : Z) : inInt64 z -> wrap64 z = z.
Proof.
  unfold inInt64, minInt64, maxInt64, wrap64. intros Hz.
  rewrite Z.mod_small by lia. lia.
Qed.

Lemma wrap64_succ_pred (z : Z) : inInt64 z -> wrap64 (wrap64 (z + 1) - 1) = z.
Proof.
  intros Hz. rewrite <- (wrap64_id z Hz) at 2. unfold wrap64.
  f_equal.
  replace ((z + 1 + 2 ^ 63) mod 2 ^ 64 - 2 ^ 63 - 1 + 2 ^ 63)
    with ((z + 1 + 2 ^ 63) mod 2 ^ 64 - 1) by lia.
  rewrite Zminus_mod_idemp_l. f_equal. lia.
Qed.

Lemma Decrement_iter (n : nat) :
  Z.of_nat n <= 2 ^ 63 ->
  dvDepth (Nat.iter n Decrement (mkDepthValuer 0)) = - Z.of_nat n.
Proof.
  induction n as [|n IH]; intros Hn; [reflexivity|].
  simpl Nat.iter. unfold Decrement at 1. simpl dvDepth.
  rewrite IH by lia.
  replace (- Z.of_nat (S n)) with (- Z.of_nat n - 1) by lia.
  apply wrap64_id. unfold inInt64, minInt64, maxInt64. lia.
Qed.

(** C10. Increment followed by Decrement restores what LogValue
    reports; Decrement has no floor: n decrements of a new DepthValuer
    report -n; and a negative depth gives the empty indentation. *)
Theorem DepthValuer_round_trip_no_floor :
  (forall dv, inInt64 (dvDepth dv) ->
     LogValue (Decrement (Increment dv)) = LogValue dv) /\
  (forall n : nat, (0 < n)%nat -> Z.of_nat n <= 2 ^ 63 ->
     LogValue (Nat.iter n Decrement (mkDepthValuer 0))
     = Int64Value (- Z.of_nat n) /\
     - Z.of_nat n < 0) /\
  (forall indent depth, depth < 0 -> indentString indent depth = "") /\
  (forall indent (n : nat), (0 < n)%nat -> Z.of_nat n <= 2 ^ 63 ->
     indentString indent
       (ValueInt64 (LogValue (Nat.iter n Decrement (mkDepthValuer 0)))) = "").
Proof.
  split; [|split; [|split]].
  - intros dv Hdv. unfold LogValue, IntValue, Decrement, Increment. simpl.
    by rewrite wrap64_succ_pred.
  - intros n Hpos Hn. unfold LogValue, IntValue.
    rewrite Decrement_iter by done. split; [done|lia].
  - intros indent depth Hd. apply indentString_nonpositive. lia.
  - intros indent n Hpos Hn. unfold LogValue, IntValue. simpl.
    rewrite Decrement_iter by done. apply indentString_nonpositive. lia.
Qed.

Lemma DepthValuer_round_trip_no_floor_witness :
  LogValue (Decrement (Increment (mkDepthValuer 3))) = Int64Value 3 /\
  LogValue (Decrement (Increment (mkDepthValuer maxInt64)))
  = Int64Value maxInt64 /\
  LogValue (Nat.iter 2 Decrement (mkDepthValuer 0)) = Int64Value (-2) /\
  indentString (DefaultIndentation "") (-2) = "".
Proof.
  destruct DepthValuer_round_trip_no_floor as (Hrt & Hneg & Hind & _).
  split; [apply (Hrt (mkDepthValuer 3)); vm_compute; split; discriminate|].
  split; [apply (Hrt (mkDepthValuer maxInt64)); vm_compute;
          split; discriminate|].
  split; [apply (Hneg 2%nat); [lia|vm_compute; discriminate]|].
  apply Hind. lia.
Defined.

(** ** The scan for the depth attribute *)

Lemma filter_andb {A} (f g : A -> bool) (l : list A) :
  List.filter (fun a => f a && g a) l = List.filter g (List.filter f l).
Proof.
  induction l as [|a l IH]; [done|]. simpl.
  destruct (f a); simpl; [|done]. destruct (g a); by rewrite IH.
Qed.

Lemma scanAttr_fold (key : string) (vs : ValuerStore) (attrs : list Attr) :
  forall acc d,
    fold_left (scanAttr key vs) attrs (acc, d)
    = (acc ++ emittedAttrs key attrs,
       match last (List.filter (isIntDepth key vs) attrs) with
       | Some a => ValueInt64 (resolveOnce vs (AttrValue a))
       | None => d
       end).
Proof.
  induction attrs as [|a attrs IH]; intros acc d.
  - simpl. by rewrite app_nil_r.
  - cbn [fold_left].
    assert (Hstep : scanAttr key vs (acc, d) a
                    = if isDepthKey key a
                      then (acc, if isIntDepth key vs a
                                 then ValueInt64 (resolveOnce vs (AttrValue a))
                                 else d)
                      else (acc ++ [a], d)).
    { unfold scanAttr, isIntDepth, isDepthKey, resolveOnce.
      destruct (String.eqb (AttrKey a) key); [|done]. simpl.
      by destruct (Kind_eqb _ _). }
    rewrite Hstep. clear Hstep.
    unfold emittedAttrs. cbn [List.filter].
    destruct (isDepthKey key a) eqn:Ek; destruct (isIntDepth key vs a) eqn:Ei;
      cbn [negb]; rewrite IH; unfold emittedAttrs.
    + rewrite last_cons. f_equal. by destruct (last _).
    + done.
    + unfold isIntDepth in Ei. by rewrite Ek in Ei.
    + by rewrite <- app_assoc.
Qed.

(** The scan of Handle retains the attributes that are not under the
    depth key and finds the depth of the record. *)
Lemma scanAttrs_spec (key : string) (vs : ValuerStore) (attrs : list Attr) :
  scanAttrs key vs attrs = (emittedAttrs key attrs, recordDepth key vs attrs).
Proof. unfold scanAttrs. by rewrite scanAttr_fold. Qed.

Lemma emittedAttrs_In (key : string) (attrs : list Attr) (a : Attr) :
  In a (emittedAttrs key attrs) <-> In a attrs /\ AttrKey a <> key.
Proof.
  unfold emittedAttrs. rewrite filter_In, negb_true_iff.
  unfold isDepthKey. by rewrite String.eqb_neq.
Qed.

Lemma emittedAttrs_app (key : string) (l1 l2 : list Attr) :
  emittedAttrs key (l1 ++ l2) = emittedAttrs key l1 ++ emittedAttrs key l2.
Proof. unfold emittedAttrs. apply List.filter_app. Qed.

Lemma filter_none {A} (f : A -> bool) (l : list A) :
  (forall a, In a l -> f a = false) -> List.filter f l = [].
Proof.
  induction l as [|a l IH]; intros Hl; [done|]. simpl.
  rewrite (Hl a) by (by left). apply IH. intros x Hx. apply Hl. by right.
Qed.

Lemma recordDepth_none (key : string) (vs : ValuerStore) (attrs : list Attr) :
  (forall a, In a attrs -> isIntDepth key vs a = false) ->
  recordDepth key vs attrs = 0.
Proof. intros Hl. unfold recordDepth. by rewrite filter_none. Qed.

Lemma recordDepth_last (key : string) (vs : ValuerStore)
  (pre post : list Attr) (a : Attr) :
  isIntDepth key vs a = true ->
  (forall x, In x post -> isIntDepth key vs x = false) ->
  recordDepth key vs (pre ++ a :: post)
  = ValueInt64 (resolveOnce vs (AttrValue a)).
Proof.
  intros Ha Hpost. unfold recordDepth.
  rewrite List.filter_app. cbn [List.filter]. rewrite Ha.
  rewrite (filter_none _ post Hpost).
  by rewrite last_snoc.
Qed.

Lemma recordDepth_snoc_wrong_kind (key : string) (vs : ValuerStore)
  (attrs : list Attr) (a : Attr) :
  isIntDepth key vs a = false ->
  recordDepth key vs (attrs ++ [a]) = recordDepth key vs attrs.
Proof.
  intros Ha. unfold recordDepth.
  rewrite List.filter_app. cbn [List.filter]. rewrite Ha.
  by rewrite app_nil_r.
Qed.

(** With at most one attribute under the depth key, the depth is the
    integer of that attribute, or 0 when it is of the wrong kind. *)
Lemma recordDepth_single (key : string) (vs : ValuerStore)
  (attrs : list Attr) :
  (length (List.filter (isDepthKey key) attrs) <= 1)%nat ->
  recordDepth key vs attrs = degradingDepth key vs attrs.
Proof.
  intros Hlen. unfold recordDepth, degradingDepth, isIntDepth.
  rewrite filter_andb.
  destruct (List.filter (isDepthKey key) attrs) as [|a [|b l]];
    [done| |simpl in Hlen; lia].
  cbn [List.filter last]. unfold depthOrZero. cbv zeta.
  by destruct (Kind_eqb _ _).
Qed.

(** ** WithGroup *)

(** C9. WithGroup trims the name, joins it to a non-empty parent path
    with a '.', also when nothing is left of the name, so that the path
    then ends in '.'; the context is the parent's, header and bytes; the
    options, the writer and the encoder are the parent's; the shared
    state is not touched. *)
Theorem WithGroup_spec {W : Type} (TrimSpace : string -> string)
  (h : Handler) (name : string) (σ : World W) :
  (WithGroup TrimSpace h name σ).2 = σ /\
  group (WithGroup TrimSpace h name σ).1
  = (if isEmpty (group h) then TrimSpace name
     else group h +:+ "." +:+ TrimSpace name) /\
  (group h <> "" -> TrimSpace name = "" ->
   group (WithGroup TrimSpace h name σ).1 = group h +:+ ".") /\
  context (WithGroup TrimSpace h name σ).1 = context h /\
  bytes σ (context (WithGroup TrimSpace h name σ).1) = bytes σ (context h) /\
  opts (WithGroup TrimSpace h name σ).1 = opts h /\
  out (WithGroup TrimSpace h name σ).1 = out h /\
  enc (WithGroup TrimSpace h name σ).1 = enc h.
Proof.
  unfold WithGroup, ret. simpl.
  split; [done|]. split; [by destruct (isEmpty (group h))|].
  split; [|done].
  intros Hg Hn. rewrite Hn.
  destruct (isEmpty (group h)) eqn:E; [|done].
  by apply isEmpty_true in E.
Qed.

Lemma WithGroup_spec_witness :
  group (WithGroup trimSpaceASCII
           (WithGroup trimSpaceASCII infoHandler " g1 " emptyWorld).1
           "   " emptyWorld).1 = "g1.".
Proof.
  destruct (WithGroup_spec trimSpaceASCII
              (WithGroup trimSpaceASCII infoHandler " g1 " emptyWorld).1
              "   " emptyWorld) as (_ & _ & Hempty & _).
  apply Hempty; [discriminate|reflexivity].
Defined.

(** ** Handle, line by line *)

Section HandleClaims.

Context {W : Type} `{Writer W} `{EncoderText}.
Variable cwd : string.
Implicit Types (σ : World W) (h : Handler) (rec : Record_).

Lemma lineText_plain h rec ctx vs :
  isZero (Indent (opts h)) = true ->
  lineText cwd h rec ctx vs
  = lineOf cwd h rec (recMessage rec) ctx vs (recAttrs rec).
Proof. intros Hz. unfold lineText. by rewrite Hz. Qed.

Lemma lineText_indented h rec ctx vs :
  isZero (Indent (opts h)) = false ->
  lineText cwd h rec ctx vs
  = lineOf cwd h rec
      (indentString (Indent (opts h))
         (recordDepth (Key (Indent (opts h))) vs (recAttrs rec))
       +:+ recMessage rec)
      ctx vs (emittedAttrs (Key (Indent (opts h))) (recAttrs rec)).
Proof. intros Hz. unfold lineText. by rewrite Hz, scanAttrs_spec. Qed.

(** A new handler has a well-formed context in every state, and so
    has a handler derived by WithGroup. *)
Lemma NewHandler_contextOK σ o options :
  contextOK σ (NewHandler o options) = true.
Proof.
  unfold contextOK, NewHandler. simpl.
  apply forallb_forall. intros b _. unfold sameArray. simpl.
  by destruct (bufArr b).
Qed.

Lemma WithGroup_contextOK TrimSpace σ h name :
  contextOK σ h = true ->
  contextOK σ (WithGroup TrimSpace h name σ).1 = true.
Proof. done. Qed.

(** Handle writes the line of the record to the writer of the
    handler, in one call of Write. *)
Lemma Handle_writes h rec σ :
  poolOK σ = true -> contextOK σ h = true ->
  sinks (Handle cwd h rec σ).2 (out h)
  = (Write (sinks σ (out h))
       (lineText cwd h rec (bytes σ (context h)) (valuers σ))).1.
Proof.
  intros Hpool Hctx.
  destruct (Handle_post cwd h rec σ Hpool Hctx) as (_ & Hs & _).
  rewrite Hs. by rewrite Nat.eqb_refl.
Qed.

(** Calls of Handle keep the state well formed and leave the contexts
    and the counters as they are. *)
Lemma later_keeps σ σ' :
  later cwd σ σ' -> poolOK σ = true ->
  poolOK σ' = true /\ valuers σ' = valuers σ /\
  (forall h, contextOK σ h = true ->
     contextOK σ' h = true /\
     bytes σ' (context h) = bytes σ (context h)).
Proof.
  intros Hl Hpool. induction Hl as [|σ' h rec Hl IH Hctx].
  - auto.
  - destruct IH as (Hpool' & Hvs & Hkeep).
    destruct (Handle_post cwd h rec σ' Hpool' Hctx)
      as (_ & _ & Hv & _ & Hp & _ & Hk).
    split; [exact Hp|]. split; [congruence|].
    intros h' Hh'. destruct (Hkeep h' Hh') as [Hc Hb].
    destruct (Hk h' Hc) as [Hc' Hb']. split; [done|congruence].
Qed.




(** C8. With indentation configured, the line that Handle writes has
    the attributes that are not under the depth key, and its message
    is indented by the depth of the record: every attribute under the
    key is left out; the depth is the value of the last one whose
    resolved value is an integer; one of the wrong kind leaves the
    depth scanned before it as it is. *)
Theorem Handle_depth_is_last_integer h rec σ :
  poolOK σ = true -> contextOK σ h = true ->
  isZero (Indent (opts h)) = false ->
  let key := Key (Indent (opts h)) in
  let vs := valuers σ in
  sinks (Handle cwd h rec σ).2 (out h)
  = (Write (sinks σ (out h))
       (lineOf cwd h rec
          (indentString (Indent (opts h)) (recordDepth key vs (recAttrs rec))
           +:+ recMessage rec)
          (bytes σ (context h)) vs (emittedAttrs key (recAttrs rec)))).1 /\
  (forall a, In a (emittedAttrs key (recAttrs rec))
             <-> In a (recAttrs rec) /\ AttrKey a <> key) /\
  (forall pre a post,
     recAttrs rec = pre ++ a :: post ->
     isIntDepth key vs a = true ->
     (forall x, In x post -> isIntDepth key vs x = false) ->
     recordDepth key vs (recAttrs rec)
     = ValueInt64 (resolveOnce vs (AttrValue a))) /\
  (forall attrs a,
     isDepthKey key a = true -> isIntDepth key vs a = false ->
     scanAttrs key vs (attrs ++ [a]) = scanAttrs key vs attrs).
Proof.
  intros Hpool Hctx Hz key vs.
  split.
  { rewrite (Handle_writes h rec σ Hpool Hctx).
    by rewrite lineText_indented. }
  split; [intros a; apply emittedAttrs_In|].
  split.
  { intros pre a post -> Ha Hpost. by apply recordDepth_last. }
  intros attrs a Hk Ha. rewrite !scanAttrs_spec.
  rewrite emittedAttrs_app, recordDepth_snoc_wrong_kind by done.
  unfold emittedAttrs at 2. cbn [List.filter]. rewrite Hk. simpl.
  by rewrite app_nil_r.
Qed.

(** C3 (amended). With indentation configured, Handle goes through
    the attributes of the record once: those under the depth key are
    left out of the line, the others are written in their order, and
    the message is indented by the depth of the record, which is 0
    when no attribute under the key resolves to an integer and, when
    at most one attribute is under the key, the integer of that
    attribute or 0 when it is of the wrong kind. Without indentation
    the message and all the attributes are written as they are. *)
Theorem Handle_attribute_scan h rec σ :
  poolOK σ = true -> contextOK σ h = true ->
  let key := Key (Indent (opts h)) in
  let vs := valuers σ in
  (isZero (Indent (opts h)) = false ->
     sinks (Handle cwd h rec σ).2 (out h)
     = (Write (sinks σ (out h))
          (lineOf cwd h rec
             (indentString (Indent (opts h))
                (recordDepth key vs (recAttrs rec))
              +:+ recMessage rec)
             (bytes σ (context h)) vs
             (emittedAttrs key (recAttrs rec)))).1) /\
  (forall a, In a (emittedAttrs key (recAttrs rec))
             <-> In a (recAttrs rec) /\ AttrKey a <> key) /\
  (forall l1 l2,
     emittedAttrs key (l1 ++ l2) = emittedAttrs key l1 ++ emittedAttrs key l2) /\
  ((forall a, In a (recAttrs rec) -> isIntDepth key vs a = false) ->
     recordDepth key vs (recAttrs rec) = 0) /\
  ((length (List.filter (isDepthKey key) (recAttrs rec)) <= 1)%nat ->
     recordDepth key vs (recAttrs rec)
     = degradingDepth key vs (recAttrs rec)) /\
  (isZero (Indent (opts h)) = true ->
     sinks (Handle cwd h rec σ).2 (out h)
     = (Write (sinks σ (out h))
          (lineOf cwd h rec (recMessage rec) (bytes σ (context h)) vs
             (recAttrs rec))).1).
Proof.
  intros Hpool Hctx key vs.
  split.
  { intros Hz. rewrite (Handle_writes h rec σ Hpool Hctx).
    by rewrite lineText_indented. }
  split; [intros a; apply emittedAttrs_In|].
  split; [apply emittedAttrs_app|].
  split; [apply recordDepth_none|].
  split; [apply recordDepth_single|].
  intros Hz. rewrite (Handle_writes h rec σ Hpool Hctx).
  by rewrite lineText_plain.
Qed.

(** C2. Two handlers derived from one parent by WithAttrs: in every
    later state the context of the parent holds the bytes it held,
    the context of each child holds those bytes followed by the text
    of its own attributes, and the line that Handle writes through a
    child is the line of the record over that context: the attributes
    of the other child are no part of it. *)
Theorem WithAttrs_siblings_isolated h attrsA attrsB σ σ3 rec :
  poolOK σ = true -> contextOK σ h = true ->
  let hA := (WithAttrs h attrsA σ).1 in
  let σ1 := (WithAttrs h attrsA σ).2 in
  let hB := (WithAttrs h attrsB σ1).1 in
  let σ2 := (WithAttrs h attrsB σ1).2 in
  let ctxA :=
    bytes σ (context h)
    ++ attrsText (encOpts (enc h)) (valuers σ) attrsA (group h) in
  let ctxB :=
    bytes σ (context h)
    ++ attrsText (encOpts (enc h)) (valuers σ) attrsB (group h) in
  later cwd σ2 σ3 ->
  bytes σ1 (context h) = bytes σ (context h) /\
  bytes σ3 (context h) = bytes σ (context h) /\
  bytes σ3 (context hA) = ctxA /\
  bytes σ3 (context hB) = ctxB /\
  sinks (Handle cwd hA rec σ3).2 (out h)
  = (Write (sinks σ3 (out h)) (lineText cwd hA rec ctxA (valuers σ))).1 /\
  sinks (Handle cwd hB rec σ3).2 (out h)
  = (Write (sinks σ3 (out h)) (lineText cwd hB rec ctxB (valuers σ))).1.
Proof.
  intros Hpool Hctx hA σ1 hB σ2 ctxA ctxB Hlater.
  destruct (contextOK_inv _ _ Hctx) as (Hv & _ & _).
  destruct (WithAttrs_post h attrsA σ Hctx)
    as (_ & HoA & _ & _ & HbA & _ & _ & HvsA & HkA & HokA & HcA).
  fold hA σ1 in HoA, HbA, HvsA, HkA, HokA, HcA.
  destruct (HokA Hpool) as [Hpool1 HctxA1].
  pose proof (HcA h Hctx) as Hctx1.
  destruct (HkA _ Hv) as [Hv1 Hb1].
  destruct (WithAttrs_post h attrsB σ1 Hctx1)
    as (_ & HoB & _ & _ & HbB & _ & _ & HvsB & HkB & HokB & HcB).
  fold hB σ2 in HoB, HbB, HvsB, HkB, HokB, HcB.
  destruct (HokB Hpool1) as [Hpool2 HctxB2].
  pose proof (HcB h Hctx1) as Hctx2.
  pose proof (HcB hA HctxA1) as HctxA2.
  destruct (contextOK_inv _ _ HctxA1) as (HvA1 & _ & _).
  destruct (HkB _ Hv1) as [_ Hb2].
  destruct (HkB _ HvA1) as [_ HbA2].
  destruct (later_keeps σ2 σ3 Hlater Hpool2) as (Hpool3 & Hvs3 & Hkeep).
  destruct (Hkeep h Hctx2) as [_ Hb3].
  destruct (Hkeep hA HctxA2) as [HctxA3 HbA3].
  destruct (Hkeep hB HctxB2) as [HctxB3 HbB3].
  assert (EA : bytes σ3 (context hA) = ctxA).
  { rewrite HbA3, HbA2, HbA. reflexivity. }
  assert (EB : bytes σ3 (context hB) = ctxB).
  { rewrite HbB3, HbB, Hb1, HvsA. reflexivity. }
  assert (Evs : valuers σ3 = valuers σ) by congruence.
  split; [done|]. split; [congruence|]. split; [done|]. split; [done|].
  split.
  - rewrite <- HoA, (Handle_writes hA rec σ3 Hpool3 HctxA3).
    by rewrite EA, Evs.
  - rewrite <- HoB, (Handle_writes hB rec σ3 Hpool3 HctxB3).
    by rewrite EB, Evs.
Qed.

End HandleClaims.

(** ** The theorems at work *)

(** The state and the handlers of the examples are well formed. *)
Lemma emptyWorld_ok :
  poolOK emptyWorld = true /\ poolOK brokenWorld = true /\
  contextOK emptyWorld infoHandler = true /\
  contextOK emptyWorld indentHandler = true.
Proof. repeat split. Qed.






(** The same record twice: the same line twice. *)
Example Handle_twice_output :
  written (sinks (Handle "/src" infoHandler debugRecord
                    (Handle "/src" infoHandler debugRecord emptyWorld).2).2 0)
  = (list_byte_of_string "7 DBG foobar foo=bar" ++ [x0a])
    ++ (list_byte_of_string "7 DBG foobar foo=bar" ++ [x0a]).
Proof. vm_compute. reflexivity. Qed.

(** C3, the claim as stated fails: an attribute of the wrong kind under
    the depth key, after one of integer kind, does not bring the depth
    down to 0; the message is indented by the depth scanned before. *)
Lemma Handle_wrong_kind_keeps_depth :
  isZero (Indent (opts indentHandler)) = false /\
  degradingDepth "depth" (valuers emptyWorld)
    [mkAttr "depth" (Int64Value 3); mkAttr "depth" (StringValue "x")] = 0 /\
  scanAttrs "depth" (valuers emptyWorld)
    [mkAttr "depth" (Int64Value 3); mkAttr "depth" (StringValue "x")]
  = ([], 3) /\
  written
    (sinks (Handle "/src" indentHandler
              (infoRecord [mkAttr "depth" (Int64Value 3);
                           mkAttr "depth" (StringValue "x")])
              emptyWorld).2 0)
  = list_byte_of_string "7 INF >      foobar" ++ [x0a] /\
  written
    (sinks (Handle "/src" indentHandler
              (infoRecord [mkAttr "depth" (Int64Value 3);
                           mkAttr "depth" (StringValue "x")])
              emptyWorld).2 0)
  <> lineOf "/src" indentHandler
       (infoRecord [mkAttr "depth" (Int64Value 3);
                    mkAttr "depth" (StringValue "x")])
       (indentString (Indent (opts indentHandler))
          (degradingDepth "depth" (valuers emptyWorld)
             [mkAttr "depth" (Int64Value 3);
              mkAttr "depth" (StringValue "x")])
        +:+ "foobar")
       [] (valuers emptyWorld) [].
Proof.
  split; [reflexivity|]. split; [reflexivity|]. split; [reflexivity|].
  split; [vm_compute; reflexivity|].
  vm_compute. discriminate.
Qed.

Lemma Handle_attribute_scan_witness :
  recordDepth "depth" (valuers emptyWorld)
    [mkAttr "a" (Int64Value 5); mkAttr "depth" (StringValue "x")]
  = 0 /\
  recordDepth "depth" (valuers emptyWorld)
    [mkAttr "a" (Int64Value 5);
     mkAttr "depth" (LogValuerValue (OtherValuer (Int64Value 2)))]
  = degradingDepth "depth" (valuers emptyWorld)
      [mkAttr "a" (Int64Value 5);
       mkAttr "depth" (LogValuerValue (OtherValuer (Int64Value 2)))] /\
  sinks (Handle "/src" infoHandler debugRecord emptyWorld).2 0
  = (Write (sinks emptyWorld 0)
       (lineOf "/src" infoHandler debugRecord "foobar" []
          (valuers emptyWorld) (recAttrs debugRecord))).1.
Proof.
  split; [|split].
  - destruct (Handle_attribute_scan "/src" indentHandler
                (infoRecord [mkAttr "a" (Int64Value 5);
                             mkAttr "depth" (StringValue "x")])
                emptyWorld eq_refl eq_refl) as (_ & _ & _ & Hnone & _).
    apply Hnone. intros a [<-|[<-|[]]]; reflexivity.
  - destruct (Handle_attribute_scan "/src" indentHandler
                (infoRecord
                   [mkAttr "a" (Int64Value 5);
                    mkAttr "depth"
                      (LogValuerValue (OtherValuer (Int64Value 2)))])
                emptyWorld eq_refl eq_refl) as (_ & _ & _ & _ & Hone & _).
    apply Hone. vm_compute. lia.
  - destruct (Handle_attribute_scan "/src" infoHandler debugRecord
                emptyWorld eq_refl eq_refl) as (_ & _ & _ & _ & _ & Hplain).
    apply Hplain. reflexivity.
Defined.

Lemma Handle_depth_is_last_integer_witness :
  recordDepth "depth" (valuers emptyWorld)
    [mkAttr "depth" (Int64Value 1); mkAttr "a" (Int64Value 5);
     mkAttr "depth" (LogValuerValue (DepthValuerPtr 0));
     mkAttr "depth" (Int64Value 2); mkAttr "depth" (StringValue "x")]
  = 2.
Proof.
  destruct (Handle_depth_is_last_integer "/src" indentHandler
              (infoRecord
                 [mkAttr "depth" (Int64Value 1); mkAttr "a" (Int64Value 5);
                  mkAttr "depth" (LogValuerValue (DepthValuerPtr 0));
                  mkAttr "depth" (Int64Value 2);
                  mkAttr "depth" (StringValue "x")])
              emptyWorld eq_refl eq_refl eq_refl) as (_ & _ & Hlast & _).
  apply (Hlast [mkAttr "depth" (Int64Value 1); mkAttr "a" (Int64Value 5);
                mkAttr "depth" (LogValuerValue (DepthValuerPtr 0))]
           (mkAttr "depth" (Int64Value 2))
           [mkAttr "depth" (StringValue "x")]).
  - reflexivity.
  - reflexivity.
  - intros x [<-|[]]. reflexivity.
Defined.

(** Several attributes under the depth key: none is written, the last
    integer one indents the message. *)
Example Handle_depth_output :
  written
    (sinks (Handle "/src" indentHandler
              (infoRecord
                 [mkAttr "depth" (Int64Value 1); mkAttr "a" (Int64Value 5);
                  mkAttr "depth" (LogValuerValue (DepthValuerPtr 0));
                  mkAttr "depth" (Int64Value 2);
                  mkAttr "depth" (StringValue "x")])
              emptyWorld).2 0)
  = list_byte_of_string "7 INF >    foobar a=5" ++ [x0a].
Proof. vm_compute. reflexivity. Qed.

Lemma WithAttrs_siblings_isolated_witness :
  let hA := (WithAttrs infoHandler [mkAttr "k" (Int64Value 1)] emptyWorld).1 in
  let σ1 := (WithAttrs infoHandler [mkAttr "k" (Int64Value 1)] emptyWorld).2 in
  let hB := (WithAttrs infoHandler [mkAttr "j" (Int64Value 2)] σ1).1 in
  let σ2 := (WithAttrs infoHandler [mkAttr "j" (Int64Value 2)] σ1).2 in
  let σ3 := (Handle "/src" hB debugRecord σ2).2 in
  bytes σ3 (context hA) = list_byte_of_string " k=1" /\
  bytes σ3 (context hB) = list_byte_of_string " j=2" /\
  sinks (Handle "/src" hA debugRecord σ3).2 0
  = (Write (sinks σ3 0)
       (lineText "/src" hA debugRecord (list_byte_of_string " k=1")
          (valuers emptyWorld))).1.
Proof.
  intros hA σ1 hB σ2 σ3.
  destruct (WithAttrs_siblings_isolated "/src" infoHandler
              [mkAttr "k" (Int64Value 1)] [mkAttr "j" (Int64Value 2)]
              emptyWorld σ3 debugRecord eq_refl eq_refl
              (later_Handle "/src" σ2 σ2 hB debugRecord
                 (later_now "/src" σ2) eq_refl))
    as (_ & _ & HA & HB & HlineA & _).
  split; [exact HA|]. split; [exact HB|exact HlineA].
Defined.

(** The lines of two siblings, one after the other, and then a line of
    the parent. *)
Example siblings_output :
  let hA := (WithAttrs infoHandler [mkAttr "k" (Int64Value 1)] emptyWorld).1 in
  let σ1 := (WithAttrs infoHandler [mkAttr "k" (Int64Value 1)] emptyWorld).2 in
  let hB := (WithAttrs infoHandler [mkAttr "j" (Int64Value 2)] σ1).1 in
  let σ2 := (WithAttrs infoHandler [mkAttr "j" (Int64Value 2)] σ1).2 in
  let σ3 := (Handle "/src" hA (infoRecord []) σ2).2 in
  let σ4 := (Handle "/src" hB (infoRecord []) σ3).2 in
  let σ5 := (Handle "/src" infoHandler (infoRecord []) σ4).2 in
  written (sinks σ5 0)
  = (list_byte_of_string "7 INF foobar k=1" ++ [x0a])
    ++ (list_byte_of_string "7 INF foobar j=2" ++ [x0a])
    ++ (list_byte_of_string "7 INF foobar" ++ [x0a]).
Proof. vm_compute. reflexivity. Qed.

(** ** More about the handler: construction and derivation *)


(** X2. The handlers derived from a handler by WithAttrs and WithGroup,
    in any number of steps, have its options, its writer and its
    encoder: Enabled answers for them as it does for the root. *)
Theorem family_shares_configuration {W : Type} `{EncoderText}
  (TrimSpace : string -> string) (root h : Handler) (l : Z) :
  family (W := W) TrimSpace root h ->
  opts h = opts root /\ out h = out root /\ enc h = enc root /\
  Enabled h l = Enabled root l.
Proof.
  intros Hf. induction Hf as [|h attrs σ Hf IH|h name σ Hf IH].
  - done.
  - destruct IH as (Ho & Hw & He & Hen).
    unfold WithAttrs, bind, ret.
    destruct (rangeAttrs _ attrs (context h) σ) as [b σ1]. simpl.
    repeat split; first [done|exact Hen].
  - destruct IH as (Ho & Hw & He & Hen).
    unfold WithGroup, ret. simpl.
    repeat split; first [done|exact Hen].
Qed.

Lemma family_shares_configuration_witness :
  Enabled
    (WithAttrs
       (WithGroup trimSpaceASCII infoHandler "g" emptyWorld).1
       [mkAttr "k" (Int64Value 1)] emptyWorld).1 LevelDebug
  = Enabled infoHandler LevelDebug.
Proof.
  apply (family_shares_configuration (W := Sink) trimSpaceASCII infoHandler).
  apply family_WithAttrs, family_WithGroup, family_root.
Defined.

(** X4. WithAttrs with no attributes, on a handler whose context is
    clipped, gives the handler back and leaves the state as it is. *)
Theorem WithAttrs_nil {W : Type} `{EncoderText} (h : Handler) (σ : World W) :
  bufCap (context h) = bufLen (context h) ->
  WithAttrs h [] σ = (h, σ).
Proof.
  intros Hclip. unfold WithAttrs, bind, ret. simpl.
  destruct h as [o w g [a n c] e]. simpl in *. subst c. reflexivity.
Qed.

Lemma WithAttrs_nil_witness :
  WithAttrs infoHandler [] emptyWorld = (infoHandler, emptyWorld).
Proof. apply WithAttrs_nil. reflexivity. Defined.

(** X6. WithGroup at the edges: on a handler without a group, a name
    that trims to nothing gives the handler back; two nested groups
    give the two trimmed names joined by one '.'. *)
Theorem WithGroup_root_and_nesting {W : Type} (TrimSpace : string -> string)
  (h : Handler) (σ σ' : World W) :
  group h = "" ->
  (forall name, TrimSpace name = "" ->
     WithGroup TrimSpace h name σ = (h, σ)) /\
  (forall n1 n2, TrimSpace n1 <> "" ->
     group (WithGroup TrimSpace (WithGroup TrimSpace h n1 σ).1 n2 σ').1
     = TrimSpace n1 +:+ "." +:+ TrimSpace n2).
Proof.
  intros Hg. split.
  - intros name Hn. unfold WithGroup, ret. rewrite Hg, Hn. simpl.
    destruct h as [o w g c e]. simpl in Hg. by subst g.
  - intros n1 n2 Hn. unfold WithGroup, ret. simpl. rewrite Hg. simpl.
    destruct (isEmpty (TrimSpace n1)) eqn:E; [|done].
    by apply isEmpty_true in E.
Qed.

Lemma WithGroup_root_and_nesting_witness :
  WithGroup trimSpaceASCII infoHandler "  " emptyWorld
  = (infoHandler, emptyWorld) /\
  group (WithGroup trimSpaceASCII
           (WithGroup trimSpaceASCII infoHandler "group1" emptyWorld).1
           " group2 " emptyWorld).1 = "group1.group2".
Proof.
  destruct (WithGroup_root_and_nesting trimSpaceASCII infoHandler
              emptyWorld emptyWorld eq_refl) as [Hid Hnest].
  split; [apply Hid; reflexivity|].
  apply (Hnest "group1" " group2 "). discriminate.
Defined.

(** ** More about Handle *)

Section HandleMore.

Context {W : Type} `{Writer W} `{EncoderText}.
Variable cwd : string.
Implicit Types (σ : World W) (h : Handler) (rec : Record_).

Lemma attrsText_app o vs (l1 l2 : list Attr) g :
  attrsText o vs (l1 ++ l2) g = attrsText o vs l1 g ++ attrsText o vs l2 g.
Proof. unfold attrsText. by rewrite map_app, concat_app. Qed.

(** The line depends on the handler through its options, its encoder
    and its group only. *)
Lemma lineText_fields h h' rec ctx vs :
  opts h' = opts h -> enc h' = enc h -> group h' = group h ->
  lineText cwd h' rec ctx vs = lineText cwd h rec ctx vs.
Proof.
  intros Ho He Hg. unfold lineText, lineOf, headerText.
  by rewrite Ho, He, Hg.
Qed.

Lemma emittedAttrs_all key (attrs : list Attr) :
  (forall a, In a attrs -> isDepthKey key a = false) ->
  emittedAttrs key attrs = attrs.
Proof.
  intros Hk. unfold emittedAttrs.
  induction attrs as [|a attrs IH]; [done|]. simpl.
  rewrite (Hk a) by (by left). simpl. f_equal.
  apply IH. intros x Hx. apply Hk. by right.
Qed.

(** X3. Well-formedness is an invariant: in every state that a program
    can reach from an empty pool by creating handlers, deriving
    handlers, logging and moving its depth counters, the pooled buffers
    are valid and empty, and the context of every handler is valid,
    clipped (capacity = length) and shares no array with a pooled
    buffer. *)
Theorem reach_wellformed (TrimSpace : string -> string) σ
  (hs : list Handler) :
  reach cwd TrimSpace σ hs ->
  poolOK σ = true /\
  (forall h, In h hs ->
     contextOK σ h = true /\ bufCap (context h) = bufLen (context h)).
Proof.
  intros Hr.
  assert (Hinv : poolOK σ = true /\
                 forall h, In h hs -> contextOK σ h = true).
  { induction Hr as [σ Hpool|σ hs o options Hr IH|σ hs h attrs Hr IH Hin
                    |σ hs h name Hr IH Hin|σ hs h rec Hr IH Hin
                    |σ hs v Hr IH].
    - split; [unfold poolOK; by rewrite Hpool|]. intros h [].
    - destruct IH as [Hp Hc]. split; [done|].
      intros h [<-|Hin]; [apply NewHandler_contextOK|by apply Hc].
    - destruct IH as [Hp Hc].
      destruct (WithAttrs_post h attrs σ (Hc h Hin))
        as (_ & _ & _ & _ & _ & _ & _ & _ & _ & Hok & Hold).
      destruct (Hok Hp) as [Hp' Hnew]. split; [done|].
      intros h' [<-|Hin']; [done|]. apply Hold, Hc, Hin'.
    - destruct IH as [Hp Hc]. split; [exact Hp|].
      intros h' [<-|Hin']; [|by apply Hc].
      exact (Hc h Hin).
    - destruct IH as [Hp Hc].
      destruct (Handle_post cwd h rec σ Hp (Hc h Hin))
        as (_ & _ & _ & _ & Hp' & _ & Hk).
      split; [done|]. intros h' Hin'. apply Hk, Hc, Hin'.
    - destruct IH as [Hp Hc]. split; [exact Hp|].
      intros h Hin. exact (Hc h Hin). }
  destruct Hinv as [Hp Hc]. split; [done|].
  intros h Hin. split; [by apply Hc|].
  by destruct (contextOK_inv _ _ (Hc h Hin)) as (_ & Hclip & _).
Qed.


(** X10. What was logged before does not show in a line: in every later
    state, after any calls of Handle through any handlers, failed
    writes among them, Handle hands to the writer the line of the
    record over the context as it was bound, in one Write. *)
Theorem Handle_line_in_later_states h rec σ σ' :
  poolOK σ = true -> contextOK σ h = true -> later cwd σ σ' ->
  sinks (Handle cwd h rec σ').2 (out h)
  = (Write (sinks σ' (out h))
       (lineText cwd h rec (bytes σ (context h)) (valuers σ))).1 /\
  (Handle cwd h rec σ').1
  = (Write (sinks σ' (out h))
       (lineText cwd h rec (bytes σ (context h)) (valuers σ))).2.
Proof.
  intros Hpool Hctx Hl.
  destruct (later_keeps cwd σ σ' Hl Hpool) as (Hpool' & Hvs & Hkeep).
  destruct (Hkeep h Hctx) as [Hctx' Hb].
  destruct (Handle_post cwd h rec σ' Hpool' Hctx') as (Hr & _).
  rewrite (Handle_writes cwd h rec σ' Hpool' Hctx'), Hr.
  by rewrite Hb, Hvs.
Qed.

(** X5. WithAttrs composes: binding [attrs1] and then [attrs2] gives a
    handler with the same options, writer, group and encoder, and a
    context with the same bytes, as binding [attrs1 ++ attrs2] at once;
    the lines written through the two handlers are the same. *)
Theorem WithAttrs_app h attrs1 attrs2 σ rec :
  poolOK σ = true -> contextOK σ h = true ->
  let h1 := (WithAttrs h attrs1 σ).1 in
  let σ1 := (WithAttrs h attrs1 σ).2 in
  let h2 := (WithAttrs h1 attrs2 σ1).1 in
  let σ2 := (WithAttrs h1 attrs2 σ1).2 in
  let h12 := (WithAttrs h (attrs1 ++ attrs2) σ).1 in
  let σ12 := (WithAttrs h (attrs1 ++ attrs2) σ).2 in
  bytes σ2 (context h2) = bytes σ12 (context h12) /\
  opts h2 = opts h12 /\ out h2 = out h12 /\ group h2 = group h12 /\
  enc h2 = enc h12 /\
  lineText cwd h2 rec (bytes σ2 (context h2)) (valuers σ2)
  = lineText cwd h12 rec (bytes σ12 (context h12)) (valuers σ12).
Proof.
  intros Hpool Hctx h1 σ1 h2 σ2 h12 σ12.
  destruct (WithAttrs_post h attrs1 σ Hctx)
    as (Ho1 & Hw1 & Hg1 & He1 & Hb1 & _ & _ & Hv1 & _ & Hok1 & _).
  fold h1 σ1 in Ho1, Hw1, Hg1, He1, Hb1, Hv1, Hok1.
  destruct (Hok1 Hpool) as [_ Hctx1].
  destruct (WithAttrs_post h1 attrs2 σ1 Hctx1)
    as (Ho2 & Hw2 & Hg2 & He2 & Hb2 & _ & _ & Hv2 & _).
  fold h2 σ2 in Ho2, Hw2, Hg2, He2, Hb2, Hv2.
  destruct (WithAttrs_post h (attrs1 ++ attrs2) σ Hctx)
    as (Ho & Hw & Hg & He & Hb & _ & _ & Hv & _).
  fold h12 σ12 in Ho, Hw, Hg, He, Hb, Hv.
  assert (Hbytes : bytes σ2 (context h2) = bytes σ12 (context h12)).
  { rewrite Hb2, Hb1, Hb, He1, Hg1, Hv1.
    by rewrite attrsText_app, app_assoc. }
  split; [done|].
  split; [congruence|]. split; [congruence|]. split; [congruence|].
  split; [congruence|].
  rewrite Hbytes.
  replace (valuers σ2) with (valuers σ12) by congruence.
  apply lineText_fields; congruence.
Qed.

(** X7. A group opened before attributes are bound: the attributes
    bound after WithGroup are written under the new path, after the
    bytes of the parent's context, which keep the path they were bound
    under; the attributes of the record come under the new path too. *)
Theorem WithGroup_then_WithAttrs (TrimSpace : string -> string)
  h name attrs σ rec :
  poolOK σ = true -> contextOK σ h = true ->
  isZero (Indent (opts h)) = true ->
  let hg := (WithGroup TrimSpace h name σ).1 in
  let hA := (WithAttrs hg attrs σ).1 in
  let σ1 := (WithAttrs hg attrs σ).2 in
  group hA = group hg /\
  sinks (Handle cwd hA rec σ1).2 (out h)
  = (Write (sinks σ1 (out h))
       (headerText cwd h rec
        ++ messageText (encOpts (enc h)) (recLevel rec) (recMessage rec)
        ++ bytes σ (context h)
        ++ attrsText (encOpts (enc h)) (valuers σ) attrs (group hg)
        ++ attrsText (encOpts (enc h)) (valuers σ) (recAttrs rec) (group hg)
        ++ newLineText (encOpts (enc h)))).1.
Proof.
  intros Hpool Hctx Hz hg hA σ1.
  assert (Hctxg : contextOK σ hg = true) by exact Hctx.
  destruct (WithAttrs_post hg attrs σ Hctxg)
    as (Ho & Hw & Hg & He & Hb & _ & _ & Hv & _ & Hok & _).
  fold hA σ1 in Ho, Hw, Hg, He, Hb, Hv, Hok.
  destruct (Hok Hpool) as [Hpool1 HctxA].
  split; [done|].
  change (out h) with (out hg). rewrite <- Hw.
  rewrite (Handle_writes cwd hA rec σ1 Hpool1 HctxA).
  rewrite lineText_plain by (rewrite Ho; exact Hz).
  unfold lineOf, headerText. rewrite Hb, Hv, He, Ho, Hg.
  change (enc hg) with (enc h). change (opts hg) with (opts h).
  change (context hg) with (context h).
  by rewrite <- !app_assoc.
Qed.

(** X16. A pointer to a DepthValuer under the depth key is read at each
    call: when it is the last attribute of the record, the message is
    indented by the count at the time of the call, and after an
    Increment through the pointer the same record is indented by one
    more. *)
Theorem Handle_reads_DepthValuer_at_each_call h rec σ (p : nat)
  (others : list Attr) :
  poolOK σ = true -> contextOK σ h = true ->
  isZero (Indent (opts h)) = false ->
  recAttrs rec
  = others ++ [mkAttr (Key (Indent (opts h)))
                 (LogValuerValue (DepthValuerPtr p))] ->
  sinks (Handle cwd h rec σ).2 (out h)
  = (Write (sinks σ (out h))
       (lineOf cwd h rec
          (indentString (Indent (opts h)) (dvDepth (valuers σ p))
           +:+ recMessage rec)
          (bytes σ (context h)) (valuers σ)
          (emittedAttrs (Key (Indent (opts h))) others))).1 /\
  sinks (Handle cwd h rec (IncrementAt p σ)).2 (out h)
  = (Write (sinks σ (out h))
       (lineOf cwd h rec
          (indentString (Indent (opts h)) (wrap64 (dvDepth (valuers σ p) + 1))
           +:+ recMessage rec)
          (bytes σ (context h)) (valuers (IncrementAt p σ))
          (emittedAttrs (Key (Indent (opts h))) others))).1.
Proof.
  intros Hpool Hctx Hz Hattrs.
  set (key := Key (Indent (opts h))) in *.
  assert (Hscan : forall vs,
            emittedAttrs key (recAttrs rec) = emittedAttrs key others /\
            recordDepth key vs (recAttrs rec) = dvDepth (vs p)).
  { intros vs. rewrite Hattrs. split.
    - rewrite emittedAttrs_app. unfold emittedAttrs at 2. simpl.
      unfold isDepthKey. simpl. rewrite String.eqb_refl. simpl.
      by rewrite app_nil_r.
    - rewrite (recordDepth_last key vs others []); [done| |by intros x []].
      unfold isIntDepth, isDepthKey. simpl. by rewrite String.eqb_refl. }
  split.
  - rewrite (Handle_writes cwd h rec σ Hpool Hctx).
    rewrite lineText_indented by done. fold key.
    destruct (Hscan (valuers σ)) as [-> ->]. reflexivity.
  - assert (Hpool' : poolOK (IncrementAt p σ) = true) by exact Hpool.
    assert (Hctx' : contextOK (IncrementAt p σ) h = true) by exact Hctx.
    rewrite (Handle_writes cwd h rec _ Hpool' Hctx').
    rewrite lineText_indented by done. fold key.
    destruct (Hscan (valuers (IncrementAt p σ))) as [-> ->].
    unfold IncrementAt at 3. simpl. unfold updateValuer.
    rewrite Nat.eqb_refl. reflexivity.
Qed.

(** X17. A depth attribute bound by WithAttrs does not indent: for a
    record that has no attribute under the depth key, the line written
    through the derived handler has the message as it is, after it the
    bytes of the context with the text of the bound attributes, the
    one under the depth key among them, and then all the attributes of
    the record. *)
Theorem bound_depth_does_not_indent h bound rec σ :
  poolOK σ = true -> contextOK σ h = true ->
  isZero (Indent (opts h)) = false ->
  (forall a, In a (recAttrs rec) ->
     isDepthKey (Key (Indent (opts h))) a = false) ->
  let hA := (WithAttrs h bound σ).1 in
  let σ1 := (WithAttrs h bound σ).2 in
  sinks (Handle cwd hA rec σ1).2 (out h)
  = (Write (sinks σ1 (out h))
       (lineOf cwd h rec (recMessage rec)
          (bytes σ (context h)
           ++ attrsText (encOpts (enc h)) (valuers σ) bound (group h))
          (valuers σ) (recAttrs rec))).1.
Proof.
  intros Hpool Hctx Hz Hnone hA σ1.
  destruct (WithAttrs_post h bound σ Hctx)
    as (Ho & Hw & Hg & He & Hb & _ & _ & Hv & _ & Hok & _).
  fold hA σ1 in Ho, Hw, Hg, He, Hb, Hv, Hok.
  destruct (Hok Hpool) as [Hpool1 HctxA].
  rewrite <- Hw, (Handle_writes cwd hA rec σ1 Hpool1 HctxA).
  rewrite lineText_indented by (rewrite Ho; exact Hz).
  rewrite Ho, Hb, Hv.
  rewrite emittedAttrs_all by done.
  rewrite recordDepth_none.
  - rewrite indentString_nonpositive by lia.
    unfold lineOf, headerText. by rewrite Ho, He, Hg.
  - intros a Ha. unfold isIntDepth. by rewrite (Hnone a Ha).
Qed.

End HandleMore.

(** ** More about the depth counters and the indentation *)

Lemma wrap64_add_l (a b : Z) : wrap64 (wrap64 a + b) = wrap64 (a + b).
Proof.
  unfold wrap64. f_equal.
  replace ((a + 2 ^ 63) mod 2 ^ 64 - 2 ^ 63 + b + 2 ^ 63)
    with ((a + 2 ^ 63) mod 2 ^ 64 + b) by lia.
  rewrite Zplus_mod_idemp_l. f_equal. lia.
Qed.

Lemma wrap64_range (z : Z) : inInt64 (wrap64 z).
Proof.
  unfold inInt64, minInt64, maxInt64, wrap64.
  pose proof (Z.mod_pos_bound (z + 2 ^ 63) (2 ^ 64)). lia.
Qed.

Lemma Increment_iter_depth (n : nat) (dv : DepthValuer) :
  inInt64 (dvDepth dv) ->
  dvDepth (Nat.iter n Increment dv) = wrap64 (dvDepth dv + Z.of_nat n).
Proof.
  intros Hdv. induction n as [|n IH].
  - simpl. rewrite Z.add_0_r. symmetry. by apply wrap64_id.
  - simpl Nat.iter. unfold Increment at 1. simpl dvDepth.
    rewrite IH, wrap64_add_l. f_equal. lia.
Qed.

Lemma Decrement_iter_depth (n : nat) (dv : DepthValuer) :
  inInt64 (dvDepth dv) ->
  dvDepth (Nat.iter n Decrement dv) = wrap64 (dvDepth dv - Z.of_nat n).
Proof.
  intros Hdv. induction n as [|n IH].
  - simpl. rewrite Z.sub_0_r. symmetry. by apply wrap64_id.
  - simpl Nat.iter. unfold Decrement at 1. simpl dvDepth.
    rewrite IH.
    replace (wrap64 (dvDepth dv - Z.of_nat n) - 1)
      with (wrap64 (dvDepth dv - Z.of_nat n) + -1) by lia.
    rewrite wrap64_add_l. f_equal. lia.
Qed.

(** X11. Nested calls: n Increments followed by n Decrements give the
    DepthValuer back, for every n, also through the wrap-around; n
    Increments of a new DepthValuer report n; and the Increment of the
    largest int wraps to the smallest, for which nothing is indented. *)
Theorem DepthValuer_nesting :
  (forall (n : nat) dv, inInt64 (dvDepth dv) ->
     Nat.iter n Decrement (Nat.iter n Increment dv) = dv) /\
  (forall n : nat, Z.of_nat n <= maxInt64 ->
     LogValue (Nat.iter n Increment (mkDepthValuer 0))
     = Int64Value (Z.of_nat n)) /\
  (LogValue (Increment (mkDepthValuer maxInt64)) = Int64Value minInt64 /\
   forall indent,
     indentString indent
       (ValueInt64 (LogValue (Increment (mkDepthValuer maxInt64)))) = "").
Proof.
  split; [|split].
  - intros n dv Hdv.
    assert (Hd : dvDepth (Nat.iter n Decrement (Nat.iter n Increment dv))
                 = dvDepth dv).
    { rewrite Decrement_iter_depth, Increment_iter_depth; try done.
      - replace (wrap64 (dvDepth dv + Z.of_nat n) - Z.of_nat n)
          with (wrap64 (dvDepth dv + Z.of_nat n) + - Z.of_nat n) by lia.
        rewrite wrap64_add_l.
        replace (dvDepth dv + Z.of_nat n + - Z.of_nat n)
          with (dvDepth dv) by lia.
        by apply wrap64_id.
      - rewrite Increment_iter_depth by done. apply wrap64_range. }
    destruct (Nat.iter n Decrement (Nat.iter n Increment dv)) as [d'].
    destruct dv as [d]. simpl in Hd. by subst.
  - intros n Hn. unfold LogValue, IntValue. f_equal.
    rewrite Increment_iter_depth by (vm_compute; split; discriminate).
    simpl dvDepth. apply wrap64_id.
    unfold inInt64, minInt64, maxInt64 in *. lia.
  - split; [reflexivity|]. intros indent. by apply indentString_nonpositive.
Qed.

Lemma DepthValuer_nesting_witness :
  Nat.iter 3 Decrement (Nat.iter 3 Increment (mkDepthValuer maxInt64))
  = mkDepthValuer maxInt64 /\
  LogValue (Nat.iter 7 Increment (mkDepthValuer 0)) = Int64Value 7.
Proof.
  destruct DepthValuer_nesting as (Hnest & Hcount & _).
  split.
  - apply Hnest. vm_compute. split; discriminate.
  - apply (Hcount 7%nat). vm_compute. discriminate.
Defined.

Lemma Embedded_Decrement_iter (n : nat) (hd : Embedded.indentation) :
  Nat.iter n Embedded.Decrement hd
  = Embedded.mkIndentationState (Embedded.prefix hd) (Embedded.indent hd)
      (Embedded.depth hd - N.of_nat n)%N.
Proof.
  induction n as [|n IH].
  - simpl. rewrite N.sub_0_r. by destruct hd.
  - simpl Nat.iter. rewrite IH. unfold Embedded.Decrement. simpl.
    destruct (0 <? Embedded.depth hd - N.of_nat n)%N eqn:E.
    + f_equal. lia.
    + apply N.ltb_ge in E. f_equal. lia.
Qed.

Lemma Embedded_Increment_iter (n : nat) (hd : Embedded.indentation) :
  (Embedded.depth hd + N.of_nat n < 2 ^ 64)%N ->
  Nat.iter n Embedded.Increment hd
  = Embedded.mkIndentationState (Embedded.prefix hd) (Embedded.indent hd)
      (Embedded.depth hd + N.of_nat n)%N.
Proof.
  induction n as [|n IH]; intros Hn.
  - simpl. rewrite N.add_0_r. by destruct hd.
  - simpl Nat.iter. rewrite IH by lia. unfold Embedded.Increment. simpl.
    f_equal. rewrite N.mod_small by lia. lia.
Qed.

(** X12. The embedded counter of handler.go: Decrement stops at zero,
    so n Decrements take the depth down to depth - n and never below 0;
    Decrement undoes Increment below the largest uint; the Increment
    of the largest uint wraps to 0; and after SetIndentation(p, i) and
    k Increments every message is preceded by p and by k copies of i. *)
Theorem Embedded_counter :
  (forall (n : nat) hd,
     Nat.iter n Embedded.Decrement hd
     = Embedded.mkIndentationState (Embedded.prefix hd) (Embedded.indent hd)
         (Embedded.depth hd - N.of_nat n)%N) /\
  (forall hd, Embedded.depth hd = 0%N -> Embedded.Decrement hd = hd) /\
  (forall hd, (Embedded.depth hd < 2 ^ 64 - 1)%N ->
     Embedded.Decrement (Embedded.Increment hd) = hd) /\
  (forall p i,
     Embedded.depth
       (Embedded.Increment (Embedded.mkIndentationState p i (2 ^ 64 - 1)))
     = 0%N) /\
  (forall hd p i (k : nat) msg, (N.of_nat k < 2 ^ 64)%N ->
     Embedded.indentMsg
       (Nat.iter k Embedded.Increment (Embedded.SetIndentation hd p i)) msg
     = p +:+ repeatString i k +:+ msg).
Proof.
  split; [exact Embedded_Decrement_iter|].
  split.
  { intros hd Hd. unfold Embedded.Decrement. by rewrite Hd. }
  split.
  { intros hd Hd. unfold Embedded.Decrement, Embedded.Increment. simpl.
    rewrite N.mod_small by lia.
    assert ((0 <? Embedded.depth hd + 1)%N = true) as ->
      by (apply N.ltb_lt; lia).
    destruct hd as [p i d]. simpl. f_equal. lia. }
  split; [reflexivity|].
  intros hd p i k msg Hk.
  rewrite Embedded_Increment_iter by (simpl; lia).
  rewrite indentMsg_spec.
  cbn [Embedded.prefix Embedded.indent Embedded.depth Embedded.SetIndentation].
  by rewrite N.add_0_l, Nat2N.id.
Qed.

Lemma Embedded_counter_witness :
  Embedded.Decrement
    (Embedded.Increment (Embedded.mkIndentationState ">" "  " 4))
  = Embedded.mkIndentationState ">" "  " 4 /\
  Embedded.Decrement (Embedded.mkIndentationState ">" "  " 0)
  = Embedded.mkIndentationState ">" "  " 0 /\
  Embedded.indentMsg
    (Nat.iter 2 Embedded.Increment
       (Embedded.SetIndentation (Embedded.mkIndentationState "" "" 9) "" "  "))
    "factorial"
  = "    factorial".
Proof.
  destruct Embedded_counter as (_ & Hzero & Hundo & _ & Hmsg).
  split; [apply Hundo; reflexivity|].
  split; [apply Hzero; reflexivity|].
  rewrite Hmsg by reflexivity. reflexivity.
Defined.

Lemma string_length_append (s1 s2 : string) :
  String.length (s1 +:+ s2) = (String.length s1 + String.length s2)%nat.
Proof.
  induction s1 as [|c s1 IH]; [done|].
  change (S (String.length (s1 +:+ s2))
          = S (String.length s1 + String.length s2)).
  by rewrite IH.
Qed.

Lemma repeatString_snoc (s : string) (n : nat) :
  repeatString s (S n) = repeatString s n +:+ s.
Proof.
  induction n as [|n IH].
  - cbn [repeatString]. by rewrite append_nil_r.
  - change (repeatString s (S (S n))) with (s +:+ repeatString s (S n)).
    rewrite IH at 1. rewrite <- append_assoc. reflexivity.
Qed.

Lemma repeatString_length (s : string) (n : nat) :
  String.length (repeatString s n) = (n * String.length s)%nat.
Proof.
  induction n as [|n IH]; [done|].
  cbn [repeatString]. rewrite string_length_append, IH. lia.
Qed.

(** X15. Each level of depth adds one tab: for every depth n > 0,
    indentString at n + 1 is indentString at n followed by the tab
    string, and its length is that of the prefix plus n times that of
    the tab string. *)
Theorem indentString_step (indent : Indentation) (depth : Z) :
  0 < depth ->
  indentString indent (depth + 1) = indentString indent depth +:+ Tab indent /\
  String.length (indentString indent depth)
  = (String.length (Prefix indent)
     + Z.to_nat depth * String.length (Tab indent))%nat.
Proof.
  intros Hd. rewrite !indentString_positive by lia.
  replace (Z.to_nat (depth + 1)) with (S (Z.to_nat depth)) by lia.
  split.
  - by rewrite repeatString_snoc, append_assoc.
  - by rewrite string_length_append, repeatString_length.
Qed.

Lemma indentString_step_witness :
  indentString (mkIndentation ">" "  " "depth") 3
  = indentString (mkIndentation ">" "  " "depth") 2 +:+ "  " /\
  String.length (indentString (mkIndentation ">" "  " "depth") 2) = 5%nat.
Proof.
  apply (indentString_step (mkIndentation ">" "  " "depth") 2). reflexivity.
Defined.

(** ** Appends that fit the capacity *)

Section InPlace.

Context {W : Type} `{Writer W} `{EncoderText}.
Variable cwd : string.
Implicit Types (σ : World W) (b c : buffer) (h : Handler).

Lemma inplace_refl σ b : validBuffer σ b = true -> inplace σ b [] σ b.
Proof.
  intros Hv. constructor; auto using grown_refl; simpl; lia.
Qed.

(** An append that fits the capacity writes into the array at hand. *)
Lemma Append_inplace σ0 b0 d σ b x b' σ' :
  inplace σ0 b0 d σ b ->
  (bufLen b0 + length (d ++ x) <= bufCap b0)%nat ->
  Append b x σ = (b', σ') ->
  inplace σ0 b0 (d ++ x) σ' b'.
Proof.
  intros [G Ha Harr Hc Hl] Hfit E.
  pose proof (Append_grown_eq _ _ _ _ _ _ _ _ G E) as G'.
  rewrite length_app in Hfit.
  unfold Append in E.
  assert ((bufLen b + length x <=? bufCap b)%nat = true) as Hleb
    by (apply Nat.leb_le; lia).
  rewrite Hleb in E.
  destruct (bufArr b) as [p|] eqn:Ep.
  - injection E as <- <-. constructor; simpl.
    + exact G'.
    + by rewrite length_insert.
    + done.
    + done.
    + rewrite length_app. lia.
  - injection E as <- <-.
    destruct (proj1 (validBuffer_nil _ _ Ep) (grown_valid _ _ _ _ _ G))
      as [_ Hc0].
    constructor; try done.
    + by rewrite Ep.
    + rewrite length_app. lia.
Qed.

Lemma writeAttr_inplace σ0 b0 d σ b e a g b' σ' :
  inplace σ0 b0 d σ b ->
  (bufLen b0 + length (d ++ attrText (encOpts e) (valuers σ0) a g)
   <= bufCap b0)%nat ->
  writeAttr e b a g σ = (b', σ') ->
  inplace σ0 b0 (d ++ attrText (encOpts e) (valuers σ0) a g) σ' b'.
Proof.
  intros I Hfit E. unfold writeAttr in E.
  rewrite (grown_valuers _ _ _ _ _ (inplace_grown _ _ _ _ _ I)) in E.
  eapply Append_inplace; eauto.
Qed.

Lemma rangeAttrs_inplace e g attrs : forall σ0 b0 d σ b b' σ',
  inplace σ0 b0 d σ b ->
  (bufLen b0 + length (d ++ attrsText (encOpts e) (valuers σ0) attrs g)
   <= bufCap b0)%nat ->
  rangeAttrs (fun buf a => writeAttr e buf a g) attrs b σ = (b', σ') ->
  inplace σ0 b0 (d ++ attrsText (encOpts e) (valuers σ0) attrs g) σ' b'.
Proof.
  induction attrs as [|a attrs IH]; intros σ0 b0 d σ b b' σ' I Hfit E.
  - injection E as <- <-. unfold attrsText. simpl. by rewrite app_nil_r.
  - simpl in E. unfold bind in E.
    destruct (writeAttr e b a g σ) as [b1 σ1] eqn:E1.
    assert (Hsplit : attrsText (encOpts e) (valuers σ0) (a :: attrs) g
                     = attrText (encOpts e) (valuers σ0) a g
                       ++ attrsText (encOpts e) (valuers σ0) attrs g)
      by reflexivity.
    rewrite Hsplit in *. rewrite app_assoc in *.
    assert (I1 : inplace σ0 b0
                   (d ++ attrText (encOpts e) (valuers σ0) a g) σ1 b1).
    { eapply writeAttr_inplace; eauto.
      rewrite length_app in Hfit. lia. }
    eapply IH; eauto.
Qed.

Lemma body_inplace σ0 b0 d σ b h rec msg attrs b' σ' :
  inplace σ0 b0 d σ b -> validBuffer σ0 (context h) = true ->
  sameArray b0 (context h) = false \/ bufCap b0 = bufLen b0 ->
  (bufLen b0
   + length (d ++ messageText (encOpts (enc h)) (recLevel rec) msg
               ++ bytes σ0 (context h)
               ++ attrsText (encOpts (enc h)) (valuers σ0) attrs (group h))
   <= bufCap b0)%nat ->
  bind (writeMessage (enc h) b (recLevel rec) msg) (fun buf =>
  bind (copy buf (context h)) (fun buf =>
  rangeAttrs (fun buf a => writeAttr (enc h) buf a (group h)) attrs buf))
    σ = (b', σ') ->
  inplace σ0 b0
    (d ++ messageText (encOpts (enc h)) (recLevel rec) msg
       ++ bytes σ0 (context h)
       ++ attrsText (encOpts (enc h)) (valuers σ0) attrs (group h)) σ' b'.
Proof.
  intros I Hv Hsep Hfit E. unfold bind, writeMessage in E.
  rewrite !app_assoc in *.
  destruct (Append b _ σ) as [b1 σ1] eqn:E1.
  assert (I1 : inplace σ0 b0
                 (d ++ messageText (encOpts (enc h)) (recLevel rec) msg)
                 σ1 b1).
  { eapply Append_inplace; eauto. pose proof Hfit as Hfit'; rewrite !length_app in Hfit'; rewrite !length_app; lia. }
  destruct (copy b1 (context h) σ1) as [b2 σ2] eqn:E2.
  assert (I2 : inplace σ0 b0
                 ((d ++ messageText (encOpts (enc h)) (recLevel rec) msg)
                  ++ bytes σ0 (context h)) σ2 b2).
  { unfold copy in E2.
    rewrite (grown_bytes_kept _ _ _ _ _ _
               (inplace_grown _ _ _ _ _ I1) Hv Hsep) in E2.
    eapply Append_inplace; eauto. pose proof Hfit as Hfit'; rewrite !length_app in Hfit'; rewrite !length_app; lia. }
  eapply rangeAttrs_inplace; eauto.
Qed.

(** The two branches of Handle, indenting or not, are one sequence of
    appends for some message and some attributes. *)
Lemma fillBuffer_branches h rec (ctx : list byte) (vs : ValuerStore) :
  exists msg attrs,
    lineText cwd h rec ctx vs = lineOf cwd h rec msg ctx vs attrs /\
    forall σx buf, valuers σx = vs ->
      (if isZero (Indent (opts h)) then
         bind (writeMessage (enc h) buf (recLevel rec) (recMessage rec))
           (fun buf =>
         bind (copy buf (context h)) (fun buf =>
         rangeAttrs (fun buf a => writeAttr (enc h) buf a (group h))
           (recAttrs rec) buf))
       else
         fun σ =>
           let '(attributes, depth) :=
             scanAttrs (Key (Indent (opts h))) (valuers σ) (recAttrs rec) in
           bind (writeMessage (enc h) buf (recLevel rec)
                   (indentString (Indent (opts h)) depth +:+ recMessage rec))
             (fun buf =>
           bind (copy buf (context h)) (fun buf =>
           rangeAttrs (fun buf a => writeAttr (enc h) buf a (group h))
             attributes buf)) σ) σx
      = bind (writeMessage (enc h) buf (recLevel rec) msg) (fun buf =>
        bind (copy buf (context h)) (fun buf =>
        rangeAttrs (fun buf a => writeAttr (enc h) buf a (group h))
          attrs buf)) σx.
Proof.
  unfold lineText. destruct (isZero (Indent (opts h))).
  - exists (recMessage rec), (recAttrs rec). split; [done|]. done.
  - destruct (scanAttrs (Key (Indent (opts h))) vs (recAttrs rec))
      as [attributes depth] eqn:Es.
    exists (indentString (Indent (opts h)) depth +:+ recMessage rec),
      attributes.
    split; [done|]. intros σx buf ->. by rewrite Es.
Qed.

Lemma fillBuffer_inplace σ0 b0 d σ b h rec b' σ' :
  inplace σ0 b0 d σ b -> validBuffer σ0 (context h) = true ->
  sameArray b0 (context h) = false \/ bufCap b0 = bufLen b0 ->
  (bufLen b0
   + length (d ++ lineText cwd h rec (bytes σ0 (context h)) (valuers σ0))
   <= bufCap b0)%nat ->
  fillBuffer cwd h rec b σ = (b', σ') ->
  inplace σ0 b0
    (d ++ lineText cwd h rec (bytes σ0 (context h)) (valuers σ0)) σ' b'.
Proof.
  intros I Hv Hsep Hfit E. unfold fillBuffer in E.
  destruct (fillBuffer_branches h rec (bytes σ0 (context h)) (valuers σ0))
    as (msg & attrs & Hline & Hcode).
  rewrite Hline in *. clear Hline.
  unfold lineOf, headerText in *.
  set (src := if AddSource (opts h) && (0 <? recPC rec)%N
              then sourceText (encOpts (enc h)) (recPC rec) cwd
              else []) in *.
  unfold bind at 1 in E. unfold writeTimestamp in E.
  destruct (Append b _ σ) as [b1 σ1] eqn:E1.
  assert (I1 : inplace σ0 b0
                 (d ++ timestampText (encOpts (enc h)) (recTime rec)) σ1 b1).
  { eapply Append_inplace; [exact I|pose proof Hfit as Hfit'; rewrite !length_app in Hfit'; rewrite !length_app; lia|exact E1]. }
  unfold bind at 1 in E. unfold writeLevel in E.
  destruct (Append b1 _ σ1) as [b2 σ2] eqn:E2.
  assert (I2 : inplace σ0 b0
                 ((d ++ timestampText (encOpts (enc h)) (recTime rec))
                  ++ levelText (encOpts (enc h)) (recLevel rec)) σ2 b2).
  { eapply Append_inplace; [exact I1|pose proof Hfit as Hfit'; rewrite !length_app in Hfit'; rewrite !length_app; lia|exact E2]. }
  unfold bind at 1 in E.
  assert (exists b3 σ3,
    (if AddSource (opts h) && (0 <? recPC rec)%N
     then writeSource (enc h) b2 (recPC rec) cwd else ret b2) σ2 = (b3, σ3)
    /\ inplace σ0 b0
         (((d ++ timestampText (encOpts (enc h)) (recTime rec))
           ++ levelText (encOpts (enc h)) (recLevel rec)) ++ src) σ3 b3)
    as (b3 & σ3 & E3 & I3).
  { unfold src in *. destruct (AddSource (opts h) && (0 <? recPC rec)%N).
    - unfold writeSource. destruct (Append b2 _ σ2) as [b3 σ3] eqn:E3.
      exists b3, σ3. split; [done|].
      eapply Append_inplace; [exact I2|pose proof Hfit as Hfit'; rewrite !length_app in Hfit'; rewrite !length_app; lia|exact E3].
    - exists b2, σ2. split; [done|]. by rewrite app_nil_r. }
  rewrite E3 in E. clear E1 E2 E3 I I1 I2.
  unfold bind at 1 in E.
  rewrite (Hcode σ3 b3
             (grown_valuers _ _ _ _ _ (inplace_grown _ _ _ _ _ I3))) in E.
  match type of E with
  | (let '(_, _) := ?c in _) = _ => destruct c as [b4 σ4] eqn:E4
  end.
  pose proof (body_inplace _ _ _ _ _ h rec msg attrs b4 σ4 I3 Hv Hsep)
    as Hbody.
  assert (Hfit4 :
    (bufLen b0
     + length ((((d ++ timestampText (encOpts (enc h)) (recTime rec))
                 ++ levelText (encOpts (enc h)) (recLevel rec)) ++ src)
               ++ messageText (encOpts (enc h)) (recLevel rec) msg
               ++ bytes σ0 (context h)
               ++ attrsText (encOpts (enc h)) (valuers σ0) attrs (group h))
     <= bufCap b0)%nat).
  { pose proof Hfit as Hfit'. rewrite !length_app in Hfit'.
    rewrite !length_app. lia. }
  specialize (Hbody Hfit4 E4).
  unfold NewLine in E.
  assert (I5 : inplace σ0 b0
                 (((((d ++ timestampText (encOpts (enc h)) (recTime rec))
                     ++ levelText (encOpts (enc h)) (recLevel rec)) ++ src)
                   ++ messageText (encOpts (enc h)) (recLevel rec) msg
                   ++ bytes σ0 (context h)
                   ++ attrsText (encOpts (enc h)) (valuers σ0) attrs (group h))
                  ++ newLineText (encOpts (enc h))) σ' b').
  { eapply Append_inplace; [exact Hbody| |exact E].
    pose proof Hfit as Hfit'. rewrite !length_app in Hfit'.
    rewrite !length_app. lia. }
  rewrite <- !app_assoc in I5. rewrite <- !app_assoc. exact I5.
Qed.

(** With a pooled buffer whose capacity holds the line, Handle
    allocates no backing array and leaves the pool as it found it. *)
Lemma Handle_inplace h rec σ b rest :
  poolOK σ = true -> contextOK σ h = true ->
  pool σ = b :: rest ->
  (length (lineText cwd h rec (bytes σ (context h)) (valuers σ))
   <= bufCap b)%nat ->
  length (arrays (Handle cwd h rec σ).2) = length (arrays σ) /\
  pool (Handle cwd h rec σ).2 = pool σ.
Proof.
  intros Hpool Hctx Hp Hfit.
  destruct (contextOK_inv _ _ Hctx) as (Hv & Hclip & Hsep).
  destruct (poolOK_inv σ b Hpool) as [Hvb Hlb]; [rewrite Hp; by left|].
  assert (Hsb : sameArray b (context h) = false)
    by (apply Hsep; rewrite Hp; by left).
  set (σ0 := setPool rest σ).
  assert (Hget : bufferPool_Get σ = (b, σ0)).
  { unfold bufferPool_Get, σ0. by rewrite Hp. }
  rewrite Handle_unfold, Hget.
  destruct (fillBuffer cwd h rec b σ0) as [b1 σ1] eqn:Ef.
  assert (I : inplace σ0 b
                (lineText cwd h rec (bytes σ (context h)) (valuers σ)) σ1 b1).
  { apply (fillBuffer_inplace σ0 b [] σ0 b h rec b1 σ1
             (inplace_refl σ0 b Hvb) Hv (or_introl Hsb)); [|exact Ef].
    simpl. change (bytes σ0 (context h)) with (bytes σ (context h)).
    change (valuers σ0) with (valuers σ). lia. }
  destruct I as [G Ha Harr Hc Hl].
  unfold flushBuffer, bind, WriteTo.
  destruct (Write _ _) as [w [e|]]; simpl;
    unfold bufferPool_Put, ret, setPool, setSink; simpl;
    rewrite (grown_pool _ _ _ _ _ G), Ha, Hp; simpl;
    (split; [done|]); f_equal;
    destruct b as [ab lb cb], b1 as [a1 l1 c1]; simpl in *; by subst.
Qed.

(** X9. Handle reuses its pooled buffer without growing it: when the
    capacity of the buffer on top of the pool holds the line, the bytes
    go into the array of that buffer, no backing array is allocated for
    it (nor for any context) and the pool is left as it was found; this
    is so for the second of two calls with the same record, whatever
    the first found. Only the arrays behind buffers are counted, not
    what else Handle allocates (the slice of retained attributes and
    the strings of the indentation). *)
Theorem Handle_reuses_buffer h rec σ :
  poolOK σ = true -> contextOK σ h = true ->
  (forall b rest,
     pool σ = b :: rest ->
     (length (lineText cwd h rec (bytes σ (context h)) (valuers σ))
      <= bufCap b)%nat ->
     length (arrays (Handle cwd h rec σ).2) = length (arrays σ) /\
     pool (Handle cwd h rec σ).2 = pool σ) /\
  (let σ1 := (Handle cwd h rec σ).2 in
   length (arrays (Handle cwd h rec σ1).2) = length (arrays σ1) /\
   pool (Handle cwd h rec σ1).2 = pool σ1).
Proof.
  intros Hpool Hctx. split.
  - intros b rest Hp Hfit. by apply (Handle_inplace h rec σ b rest).
  - intros σ1.
    destruct (Handle_spec cwd h rec σ Hpool Hctx)
      as (b1 & σ' & G & Hl0 & _ & E).
    destruct (Handle_post cwd h rec σ Hpool Hctx)
      as (_ & _ & Hvs & _ & Hpool1 & _ & Hkeep).
    destruct (Hkeep h Hctx) as [Hctx1 Hb1].
    fold σ1 in Hvs, Hpool1, Hctx1, Hb1.
    assert (Hp1 : pool σ1 = Reset b1 :: tail (pool σ))
      by (unfold σ1; rewrite E; reflexivity).
    apply (Handle_inplace h rec σ1 (Reset b1) (tail (pool σ)) Hpool1 Hctx1 Hp1).
    rewrite Hb1, Hvs. simpl.
    pose proof (grown_valid _ _ _ _ _ G) as Hvb.
    pose proof (bytes_length _ _ Hvb) as Hlen.
    rewrite (grown_bytes _ _ _ _ _ G), length_app in Hlen.
    assert (Hcap : (bufLen b1 <= bufCap b1)%nat).
    { unfold validBuffer in Hvb. destruct (bufArr b1).
      - destruct (arrays σ' !! n); [|done].
        apply andb_true_iff in Hvb as [Hle _]. by apply Nat.leb_le.
      - apply andb_true_iff in Hvb as [Hle Hc].
        apply Nat.eqb_eq in Hle, Hc. lia. }
    lia.
Qed.

End InPlace.

(** ** handler.go: the handler that carries its depth *)

Section IndenterFacts.

Context {W : Type} `{Writer W} `{EncoderText}.
Variable cwd : string.
Variable TrimSpace : string -> string.
Implicit Types (σ : World W) (h : IndenterHandler.Handler) (rec : Record_).

(** Handle of handler.go is Handle without indentation options on the
    record whose message went through indentMsg. *)
Lemma IndenterHandler_Handle_eq h rec σ :
  IndenterHandler.Handle cwd h rec σ
  = Handle cwd (asHandler h)
      (withMessage
         (Embedded.indentMsg (IndenterHandler.hIndentation h) (recMessage rec))
         rec) σ.
Proof.
  unfold IndenterHandler.Handle, Handle, bind, ret.
  change (isZero (Indent (opts (asHandler h)))) with true. cbv iota.
  cbn [withMessage recTime recMessage recLevel recPC recAttrs asHandler
       opts out group context enc AddSource IndenterHandler.liftOptions].
  destruct (bufferPool_Get σ) as [b0 σ0].
  destruct (writeTimestamp _ _ _ _) as [b1 σ1].
  destruct (writeLevel _ _ _ _) as [b2 σ2].
  destruct (IndenterHandler.oAddSource (IndenterHandler.hOpts h)
            && (0 <? recPC rec)%N);
    [destruct (writeSource _ _ _ _ _) as [b3 σ3]|];
    destruct (writeMessage _ _ _ _ _) as [b4 σ4];
    destruct (copy _ _ _) as [b5 σ5];
    destruct (rangeAttrs _ _ _ _) as [b6 σ6];
    destruct (NewLine _ _ _) as [b7 σ7];
    destruct (WriteTo _ _ _) as [[b8 [e|]] σ8];
    reflexivity.
Qed.

Lemma IndenterHandler_WithAttrs_eq h attrs σ :
  asHandler (IndenterHandler.WithAttrs h attrs σ).1
  = (WithAttrs (asHandler h) attrs σ).1 /\
  (IndenterHandler.WithAttrs h attrs σ).2 = (WithAttrs (asHandler h) attrs σ).2.
Proof.
  unfold IndenterHandler.WithAttrs, WithAttrs, bind, ret. simpl.
  by destruct (rangeAttrs _ attrs (IndenterHandler.hContext h) σ).
Qed.

(** X13. Handle of handler.go writes, in one Write, the timestamp, the
    level and the source, the message preceded by the prefix and by
    depth copies of the indent, the bytes of the context and all the
    attributes of the record, none left out, and returns what Write
    returns. *)
Theorem IndenterHandler_Handle_line h rec σ :
  poolOK σ = true -> contextOK σ (asHandler h) = true ->
  sinks (IndenterHandler.Handle cwd h rec σ).2 (IndenterHandler.hOut h)
  = (Write (sinks σ (IndenterHandler.hOut h))
       (lineOf cwd (asHandler h) rec
          (Embedded.prefix (IndenterHandler.hIndentation h)
           +:+ repeatString
                 (Embedded.indent (IndenterHandler.hIndentation h))
                 (N.to_nat (Embedded.depth (IndenterHandler.hIndentation h)))
           +:+ recMessage rec)
          (bytes σ (IndenterHandler.hContext h)) (valuers σ)
          (recAttrs rec))).1 /\
  (IndenterHandler.Handle cwd h rec σ).1
  = (Write (sinks σ (IndenterHandler.hOut h))
       (lineOf cwd (asHandler h) rec
          (Embedded.prefix (IndenterHandler.hIndentation h)
           +:+ repeatString
                 (Embedded.indent (IndenterHandler.hIndentation h))
                 (N.to_nat (Embedded.depth (IndenterHandler.hIndentation h)))
           +:+ recMessage rec)
          (bytes σ (IndenterHandler.hContext h)) (valuers σ)
          (recAttrs rec))).2.
Proof.
  intros Hpool Hctx. rewrite IndenterHandler_Handle_eq, indentMsg_spec.
  set (rec' := withMessage _ rec).
  destruct (Handle_post cwd (asHandler h) rec' σ Hpool Hctx) as (Hr & _).
  pose proof (Handle_writes cwd (asHandler h) rec' σ Hpool Hctx) as Hw.
  rewrite lineText_plain in Hr, Hw by reflexivity.
  split; [exact Hw|exact Hr].
Qed.

(** X14. The handlers that WithAttrs and WithGroup of handler.go return
    have no indentation, whatever the indentation of the handler they
    come from: their lines carry the message as it is. *)
Theorem IndenterHandler_derived_lose_indentation h attrs name rec σ :
  poolOK σ = true -> contextOK σ (asHandler h) = true ->
  let hA := (IndenterHandler.WithAttrs h attrs σ).1 in
  let σ1 := (IndenterHandler.WithAttrs h attrs σ).2 in
  let hG := (IndenterHandler.WithGroup TrimSpace h name σ).1 in
  IndenterHandler.hIndentation hA = IndenterHandler.zeroIndentation /\
  IndenterHandler.hIndentation hG = IndenterHandler.zeroIndentation /\
  sinks (IndenterHandler.Handle cwd hA rec σ1).2 (IndenterHandler.hOut h)
  = (Write (sinks σ1 (IndenterHandler.hOut h))
       (lineOf cwd (asHandler h) rec (recMessage rec)
          (bytes σ (IndenterHandler.hContext h)
           ++ attrsText (encOpts (IndenterHandler.hEnc h)) (valuers σ) attrs
                (IndenterHandler.hGroup h))
          (valuers σ) (recAttrs rec))).1 /\
  sinks (IndenterHandler.Handle cwd hG rec σ).2 (IndenterHandler.hOut h)
  = (Write (sinks σ (IndenterHandler.hOut h))
       (lineOf cwd (asHandler hG) rec (recMessage rec)
          (bytes σ (IndenterHandler.hContext h)) (valuers σ)
          (recAttrs rec))).1.
Proof.
  intros Hpool Hctx hA σ1 hG.
  assert (EA : IndenterHandler.hIndentation hA
               = IndenterHandler.zeroIndentation).
  { unfold hA, IndenterHandler.WithAttrs, bind, ret.
    by destruct (rangeAttrs _ attrs (IndenterHandler.hContext h) σ). }
  split; [exact EA|]. split; [reflexivity|].
  destruct (IndenterHandler_WithAttrs_eq h attrs σ) as [EhA Eσ1].
  fold hA in EhA. fold σ1 in Eσ1.
  destruct (WithAttrs_post (asHandler h) attrs σ Hctx)
    as (Ho & Hw & Hg & He & Hb & _ & _ & Hv & _ & Hok & _).
  destruct (Hok Hpool) as [Hpool1 HctxA].
  split.
  - rewrite IndenterHandler_Handle_eq, EA.
    change (Embedded.indentMsg IndenterHandler.zeroIndentation (recMessage rec))
      with (recMessage rec).
    rewrite EhA, Eσ1.
    change (IndenterHandler.hOut h) with (out (asHandler h)).
    rewrite <- Hw.
    rewrite (Handle_writes cwd _ _ _ Hpool1 HctxA).
    rewrite lineText_plain by (rewrite Ho; reflexivity).
    unfold lineOf, headerText.
    cbn [withMessage recTime recMessage recLevel recPC recAttrs].
    rewrite Ho, He, Hg, Hb, Hv. reflexivity.
  - assert (HctxG : contextOK σ (asHandler hG) = true) by exact Hctx.
    rewrite IndenterHandler_Handle_eq.
    change (Embedded.indentMsg (IndenterHandler.hIndentation hG)
              (recMessage rec)) with (recMessage rec).
    change (IndenterHandler.hOut h) with (out (asHandler hG)).
    rewrite (Handle_writes cwd (asHandler hG) _ σ Hpool HctxG).
    rewrite lineText_plain by reflexivity. reflexivity.
Qed.

End IndenterFacts.

(** ** The further theorems at work *)

Lemma reach_wellformed_witness :
  contextOK
    (Handle "/src"
       (WithAttrs infoHandler [mkAttr "k" (Int64Value 1)] emptyWorld).1
       debugRecord
       (WithAttrs infoHandler [mkAttr "k" (Int64Value 1)] emptyWorld).2).2
    (WithAttrs infoHandler [mkAttr "k" (Int64Value 1)] emptyWorld).1 = true.
Proof.
  refine (proj1 (proj2 (reach_wellformed "/src" trimSpaceASCII _
                          [(WithAttrs infoHandler [mkAttr "k" (Int64Value 1)]
                              emptyWorld).1; infoHandler] _) _ _)).
  - apply reach_Handle; [|by left].
    apply (reach_WithAttrs "/src" trimSpaceASCII emptyWorld [infoHandler]);
      [|by left].
    apply (reach_NewHandler "/src" trimSpaceASCII emptyWorld [] 0 None).
    apply reach_start. reflexivity.
  - by left.
Defined.


Lemma Handle_line_in_later_states_witness :
  (Handle "/src" infoHandler debugRecord
     (Handle "/src" indentHandler (infoRecord []) brokenWorld).2).1
  = Some "write failed".
Proof.
  destruct (Handle_line_in_later_states "/src" infoHandler debugRecord
              brokenWorld
              (Handle "/src" indentHandler (infoRecord []) brokenWorld).2
              eq_refl eq_refl
              (later_Handle "/src" brokenWorld brokenWorld indentHandler
                 (infoRecord []) (later_now "/src" brokenWorld) eq_refl))
    as [_ Hr].
  rewrite Hr. reflexivity.
Defined.

(** A failed write leaves nothing behind: the next line is written
    alone once the writer works again. *)
Example line_after_failed_write :
  written
    (sinks
       (Handle "/src" infoHandler (infoRecord [])
          (setSink 0 (mkSink [] false)
             (Handle "/src" infoHandler debugRecord brokenWorld).2)).2 0)
  = list_byte_of_string "7 INF foobar" ++ [x0a].
Proof. vm_compute. reflexivity. Qed.

Lemma WithAttrs_app_witness :
  bytes
    (WithAttrs
       (WithAttrs infoHandler [mkAttr "a" (Int64Value 1)] emptyWorld).1
       [mkAttr "b" (Int64Value 2)]
       (WithAttrs infoHandler [mkAttr "a" (Int64Value 1)] emptyWorld).2).2
    (context
       (WithAttrs
          (WithAttrs infoHandler [mkAttr "a" (Int64Value 1)] emptyWorld).1
          [mkAttr "b" (Int64Value 2)]
          (WithAttrs infoHandler [mkAttr "a" (Int64Value 1)] emptyWorld).2).1)
  = bytes
      (WithAttrs infoHandler
         [mkAttr "a" (Int64Value 1); mkAttr "b" (Int64Value 2)] emptyWorld).2
      (context
         (WithAttrs infoHandler
            [mkAttr "a" (Int64Value 1); mkAttr "b" (Int64Value 2)]
            emptyWorld).1).
Proof.
  exact (proj1 (WithAttrs_app "/src" infoHandler [mkAttr "a" (Int64Value 1)]
                  [mkAttr "b" (Int64Value 2)] emptyWorld debugRecord
                  eq_refl eq_refl)).
Defined.

Lemma WithGroup_then_WithAttrs_witness :
  group
    (WithAttrs (WithGroup trimSpaceASCII infoHandler "group1" emptyWorld).1
       [mkAttr "foo" (StringValue "bar")] emptyWorld).1
  = "group1".
Proof.
  exact (proj1 (WithGroup_then_WithAttrs "/src" trimSpaceASCII infoHandler
                  "group1" [mkAttr "foo" (StringValue "bar")] emptyWorld
                  debugRecord eq_refl eq_refl eq_refl)).
Defined.

(** The lines of TestHandler_WithGroup, with the plain encoder. *)
Example WithGroup_test_lines :
  let h2 := (WithAttrs
               (WithGroup trimSpaceASCII infoHandler "group1" emptyWorld).1
               [mkAttr "foo" (StringValue "bar")] emptyWorld).1 in
  let σ2 := (WithAttrs
               (WithGroup trimSpaceASCII infoHandler "group1" emptyWorld).1
               [mkAttr "foo" (StringValue "bar")] emptyWorld).2 in
  let h3 := (WithGroup trimSpaceASCII h2 "group2" σ2).1 in
  let rec := infoRecord [mkAttr "int" (Int64Value 12)] in
  let σ3 := (Handle "/src" h2 rec σ2).2 in
  let σ4 := (Handle "/src" h3 rec σ3).2 in
  let σ5 := (Handle "/src" infoHandler rec σ4).2 in
  written (sinks σ5 0)
  = (list_byte_of_string "7 INF foobar group1.foo=bar group1.int=12" ++ [x0a])
    ++ (list_byte_of_string
          "7 INF foobar group1.foo=bar group1.group2.int=12" ++ [x0a])
    ++ (list_byte_of_string "7 INF foobar int=12" ++ [x0a]).
Proof. vm_compute. reflexivity. Qed.

Lemma Handle_reads_DepthValuer_at_each_call_witness :
  written
    (sinks
       (Handle "/src" indentHandler
          (infoRecord [mkAttr "n" (Int64Value 7);
                       mkAttr "depth" (LogValuerValue (DepthValuerPtr 0))])
          (IncrementAt 0 (IncrementAt 0 emptyWorld))).2 0)
  = list_byte_of_string "7 INF >    foobar n=7" ++ [x0a].
Proof.
  rewrite (proj2 (Handle_reads_DepthValuer_at_each_call "/src" indentHandler
                    (infoRecord
                       [mkAttr "n" (Int64Value 7);
                        mkAttr "depth" (LogValuerValue (DepthValuerPtr 0))])
                    (IncrementAt 0 emptyWorld) 0
                    [mkAttr "n" (Int64Value 7)]
                    eq_refl eq_refl eq_refl eq_refl)).
  vm_compute. reflexivity.
Defined.

Lemma bound_depth_does_not_indent_witness :
  written
    (sinks
       (Handle "/src"
          (WithAttrs indentHandler [mkAttr "depth" (Int64Value 3)]
             emptyWorld).1
          (infoRecord [mkAttr "n" (Int64Value 7)])
          (WithAttrs indentHandler [mkAttr "depth" (Int64Value 3)]
             emptyWorld).2).2 0)
  = list_byte_of_string "7 INF foobar depth=3 n=7" ++ [x0a].
Proof.
  rewrite (bound_depth_does_not_indent "/src" indentHandler
             [mkAttr "depth" (Int64Value 3)]
             (infoRecord [mkAttr "n" (Int64Value 7)]) emptyWorld
             eq_refl eq_refl eq_refl).
  - vm_compute. reflexivity.
  - intros a [<-|[]]. reflexivity.
Defined.

Lemma Handle_reuses_buffer_witness :
  length
    (arrays
       (Handle "/src" infoHandler debugRecord
          (Handle "/src" infoHandler debugRecord emptyWorld).2).2)
  = length (arrays (Handle "/src" infoHandler debugRecord emptyWorld).2).
Proof.
  exact (proj1 (proj2 (Handle_reuses_buffer "/src" infoHandler debugRecord
                         emptyWorld eq_refl eq_refl))).
Defined.

Lemma IndenterHandler_Handle_line_witness :
  written
    (sinks
       (IndenterHandler.Handle "/src"
          (IndenterHandler.Increment
             (IndenterHandler.Increment
                (IndenterHandler.SetIndentation
                   (IndenterHandler.NewHandler 0 None) "" "  ")))
          (infoRecord [mkAttr "depth" (Int64Value 9)]) emptyWorld).2 0)
  = list_byte_of_string "7 INF     foobar depth=9" ++ [x0a].
Proof.
  rewrite (proj1 (IndenterHandler_Handle_line "/src"
                    (IndenterHandler.Increment
                       (IndenterHandler.Increment
                          (IndenterHandler.SetIndentation
                             (IndenterHandler.NewHandler 0 None) "" "  ")))
                    (infoRecord [mkAttr "depth" (Int64Value 9)]) emptyWorld
                    eq_refl eq_refl)).
  vm_compute. reflexivity.
Defined.

Lemma IndenterHandler_derived_lose_indentation_witness :
  written
    (sinks
       (IndenterHandler.Handle "/src"
          (IndenterHandler.WithAttrs
             (IndenterHandler.Increment
                (IndenterHandler.SetIndentation
                   (IndenterHandler.NewHandler 0 None) ">" "  "))
             [mkAttr "k" (Int64Value 1)] emptyWorld).1
          (infoRecord [])
          (IndenterHandler.WithAttrs
             (IndenterHandler.Increment
                (IndenterHandler.SetIndentation
                   (IndenterHandler.NewHandler 0 None) ">" "  "))
             [mkAttr "k" (Int64Value 1)] emptyWorld).2).2 0)
  = list_byte_of_string "7 INF foobar k=1" ++ [x0a].
Proof.
  rewrite (proj1 (proj2 (proj2
             (IndenterHandler_derived_lose_indentation "/src" trimSpaceASCII
                (IndenterHandler.Increment
                   (IndenterHandler.SetIndentation
                      (IndenterHandler.NewHandler 0 None) ">" "  "))
                [mkAttr "k" (Int64Value 1)] "g" (infoRecord []) emptyWorld
                eq_refl eq_refl)))).
  vm_compute. reflexivity.
Defined.
